(** * mockconn: the scenario-cursor state machine of the mock net.Conn

    A shallow embedding of [mock.go].  A [Conn] owns a scenario (a slice of
    actions), a cursor [current] into it, the accumulated [errors] and the
    [closed] latch.  [Conn.Read], [Conn.Write] and [Conn.Close] check a call
    against the action at the cursor; [Conn.Verify] reports what is left.

    Modelling choices, all taken from the source:
    - [[]byte] is [list byte]; [len], slicing [s[n:]] and the builtin [copy]
      are [length], [drop] and [take]/[drop] on lists.
    - [current] and every [len] are non-negative and bounded by the length of
      a slice, so they are [nat] (a Go [int] never wraps here).
    - The scenario holds pointers to action structs that are drained in
      place ([read.data = read.data[n:]]).  The store of these structs is the
      scenario list itself, updated at the cursor; every slot is taken to be
      an object of its own, as the constructors [Read], [Write] and [Close]
      produce them.  Module [Ptr] drops that: it keeps the structs and the
      slice of pointers apart, so that one struct can sit in several slots.
      On scenarios whose slots hold distinct structs the two embeddings make
      the same calls ([call_view], [run_view]); the drain of read actions,
      where a struct listed twice shows, is stated on [Ptr].
    - An [error] value is built by [fmt.Errorf] from a format string and its
      arguments; the embedding keeps the format (one constructor each) and
      the arguments, and leaves the colouring of the text out.
    - [c.t] is the attached [*testing.T]; what is observable of it is the
      list of messages given to [t.Error].  The summary text that [Verify]
      sends to [t.Log] changes no state; it is [Conn.summary], beside
      [Conn.Verify].
    - A method that calls itself ([c.Read(b)] inside [Read]) is a fixpoint
      over a recursion budget; the budget a [Conn] is run with is shown to be
      enough, so the budget never decides a result. *)

From Stdlib Require Import Strings.String Strings.Byte.
From stdpp Require Import base list.

(** ** Actions *)

Inductive ActionType : Type :=
  | ReadActionType
  | WriteActionType
  | CloseActionType
  | nullActionType.

(** [readAction], [writeAction], [closeAction] and [nullAction] are the four
    implementations of the interface [Action]. *)
Inductive Action : Type :=
  | readAction (data original : list byte)
  | writeAction (data original : list byte)
  | closeAction
  | nullAction.

Definition Type_ (a : Action) : ActionType :=
  match a with
  | readAction _ _ => ReadActionType
  | writeAction _ _ => WriteActionType
  | closeAction => CloseActionType
  | nullAction => nullActionType
  end.

Definition Read (data : list byte) : Action := readAction data data.
Definition Write (data : list byte) : Action := writeAction data data.
Definition Close : Action := closeAction.

(** ** Errors

    One constructor per message of the source; the scenario number is the
    [c.current+1] given to the format.
    - [AlreadyClosed]: [errors.New("already closed")]
    - [ShouldCloseButRead i]: "socket scenario i - should close, but Read() is called"
      (used by [Read] both on a pending write action and on a close action)
    - [ShouldReadButWrite i]: "socket scenario i - should read data, but Write() is called"
    - [WriteMismatch i e a]: "socket scenario i - Write() expected=e actual=a"
    - [ShouldCloseButWrite i]: "socket scenario i - should close, but Write() is called"
    - [ShouldReadButClose i]: "socket scenario i - should read data, but Close() is called"
    - [ShouldWriteButClose i]: "socket scenario i - should write data, but Close() is called"
    - [RemainedToRead i d]: "mock socket scenario i - there is remained data to read: d"
    - [RemainedToWrite i d]: "mock socket scenario i - there is remained data to write: d"
    - [Unconsumed k n]: "Unconsumed senario exists - k/n" *)
Inductive error : Type :=
  | AlreadyClosed
  | ShouldCloseButRead (i : nat)
  | ShouldReadButWrite (i : nat)
  | WriteMismatch (i : nat) (expected actual : list byte)
  | ShouldCloseButWrite (i : nat)
  | ShouldReadButClose (i : nat)
  | ShouldWriteButClose (i : nat)
  | RemainedToRead (i : nat) (data : list byte)
  | RemainedToWrite (i : nat) (data : list byte)
  | Unconsumed (k n : nat).

(** ** The connection *)

Record TCPAddr : Type := mkTCPAddr { IP : N * N * N * N; Port : N }.

Record Conn : Type := mkConn {
  t : option (list error);
  errors : list error;
  scenario : list Action;
  current : nat;
  localAddr : TCPAddr;
  remoteAddr : TCPAddr;
  closed : bool
}.

Definition set_t (c : Conn) (v : option (list error)) : Conn :=
  mkConn v (errors c) (scenario c) (current c) (localAddr c) (remoteAddr c) (closed c).
Definition set_errors (c : Conn) (v : list error) : Conn :=
  mkConn (t c) v (scenario c) (current c) (localAddr c) (remoteAddr c) (closed c).
Definition set_scenario (c : Conn) (v : list Action) : Conn :=
  mkConn (t c) (errors c) v (current c) (localAddr c) (remoteAddr c) (closed c).
Definition set_current (c : Conn) (v : nat) : Conn :=
  mkConn (t c) (errors c) (scenario c) v (localAddr c) (remoteAddr c) (closed c).
Definition set_closed (c : Conn) (v : bool) : Conn :=
  mkConn (t c) (errors c) (scenario c) (current c) (localAddr c) (remoteAddr c) v.

(** [c.current++] *)
Definition incr (c : Conn) : Conn := set_current c (current c + 1).

(** Assignment to a field of the action struct the slot [i] points to, for
    a slot whose struct no other slot points to ([view_assign]); the
    assignment through a pointer that several slots hold is [Ptr.assign]. *)
Definition set_action (c : Conn) (i : nat) (a : Action) : Conn :=
  set_scenario c (<[i := a]> (scenario c)).

(** What a call does: it returns (with the connection as the call leaves it),
    or it panics with an index out of range (again with the connection as
    the panic leaves it), or the recursion budget of the model is used up. *)
Inductive outcome (A : Type) : Type :=
  | Returns (c : Conn) (r : A)
  | Panics (c : Conn)
  | OutOfFuel.
Arguments Returns {A} c r.
Arguments Panics {A} c.
Arguments OutOfFuel {A}.

Definition New (t0 : option (list error)) : Conn :=
  mkConn t0 [] [] 0 (mkTCPAddr (127, 0, 0, 1)%N 12345%N) (mkTCPAddr (127, 0, 0, 1)%N 8080%N) false.

(** The source only assigns the slice: the cursor is left where it is. *)
Definition SetExpectedActions (c : Conn) (actions : list Action) : Conn :=
  set_scenario c actions.

#[global] Instance byte_eq_dec : EqDecision byte := Byte.byte_eq_dec.

(** The loop of [Write] over [b]: [Some false] at the first [ch != write.data[i]],
    [Some true] when the range ends, [None] where [write.data[i]] would be out
    of range (the guard [len(b) <= len(write.data)] keeps the loop from it). *)
Fixpoint same (b data : list byte) : option bool :=
  match b with
  | [] => Some true
  | ch :: b' =>
      match data with
      | [] => None
      | d :: data' => if Byte.eqb ch d then same b' data' else Some false
      end
  end.

(** ** The text of the summary

    [cyan] and [yellow] colour the quoted bytes; a piece of text is kept as
    its colour and its bytes.  [logText] slices [original] at
    [len(original)-len(actual)], which panics when [actual] is the longer:
    that is [None]. *)
Inductive colour : Type := Cyan | Yellow.

Definition cyan (value : list byte) : list (colour * list byte) := [(Cyan, value)].
Definition yellow (value : list byte) : list (colour * list byte) := [(Yellow, value)].

Definition logText (ok : bool) (original actual : list byte)
    : option (list (colour * list byte)) :=
  if ok then
    if negb (length actual =? 0) && negb (length actual =? length original) then
      if length original <? length actual then None
      else Some (cyan (take (length original - length actual) original) ++ yellow actual)
    else Some (cyan original)
  else Some (yellow original).

Module Conn.

Definition getAction (c : Conn) (i : nat) : Action :=
  match scenario c !! i with
  | Some a => a
  | None => nullAction
  end.

Definition addError (c : Conn) (err : error) : Conn :=
  set_t (set_errors c (errors c ++ [err])) ((fun log => log ++ [err]) <$> t c).

(** The body of [Read]; [self] is the call [c.Read(b)].  The result is the
    buffer after the call, [n] and [err]. *)
Definition Read_body (self : Conn -> list byte -> outcome (list byte * nat * option error))
    (c : Conn) (b : list byte) : outcome (list byte * nat * option error) :=
  if closed c then Returns c (b, 0, Some AlreadyClosed)
  else
    match getAction c (current c) with
    | readAction data original =>
        if 0 <? length data then
          let n := length b `min` length data in
          Returns (set_action c (current c) (readAction (drop n data) original))
                  (take n data ++ drop n b, n, None)
        else
          match Type_ (getAction c (current c + 1)) with
          | ReadActionType => self (incr c) b
          | _ => Returns c (b, 0, None)
          end
    | writeAction data original =>
        if length data =? 0 then
          let c' := incr c in
          match scenario c' !! current c' with
          | Some _ => Returns c' (b, 0, None)
          | None => Panics c'
          end
        else
          let e := ShouldCloseButRead (current c + 1) in
          Returns (addError c e) (b, 0, Some e)
    | closeAction =>
        let e := ShouldCloseButRead (current c + 1) in
        Returns (addError c e) (b, 0, Some e)
    | nullAction => Returns c (b, 0, None)
    end.

Fixpoint Read_fuel (fuel : nat) (c : Conn) (b : list byte)
    : outcome (list byte * nat * option error) :=
  match fuel with
  | 0 => OutOfFuel
  | S fuel' => Read_body (Read_fuel fuel') c b
  end.

Definition Read (c : Conn) (b : list byte) : outcome (list byte * nat * option error) :=
  Read_fuel (S (length (scenario c))) c b.

(** The body of [Write]; the result is [n] and [err]. *)
Definition Write_body (self : Conn -> list byte -> outcome (nat * option error))
    (c : Conn) (b : list byte) : outcome (nat * option error) :=
  if closed c then Returns c (0, Some AlreadyClosed)
  else
    match getAction c (current c) with
    | readAction data original =>
        if 0 <? length data then
          let e := ShouldReadButWrite (current c + 1) in
          Returns (addError c e) (0, Some e)
        else self (incr c) b
    | writeAction data original =>
        let mismatch := WriteMismatch (current c + 1) data b in
        if length b <=? length data then
          match same b data with
          | None => Panics c
          | Some false => Returns (addError c mismatch) (0, Some mismatch)
          | Some true =>
              if length b =? length data then Returns (incr c) (length b, None)
              else Returns (set_action c (current c)
                              (writeAction (drop (length b) data) original))
                           (length b, None)
          end
        else Returns (addError c mismatch) (0, Some mismatch)
    | closeAction =>
        let e := ShouldCloseButWrite (current c + 1) in
        Returns (addError c e) (0, Some e)
    | nullAction => Returns c (0, None)
    end.

Fixpoint Write_fuel (fuel : nat) (c : Conn) (b : list byte) : outcome (nat * option error) :=
  match fuel with
  | 0 => OutOfFuel
  | S fuel' => Write_body (Write_fuel fuel') c b
  end.

Definition Write (c : Conn) (b : list byte) : outcome (nat * option error) :=
  Write_fuel (S (length (scenario c))) c b.

(** The body of [Close]; the result is the returned error. *)
Definition Close_body (self : Conn -> outcome (option error)) (c : Conn)
    : outcome (option error) :=
  if closed c then Returns c (Some AlreadyClosed)
  else
    match getAction c (current c) with
    | readAction data original =>
        if 0 <? length data then
          let e := ShouldReadButClose (current c + 1) in
          Returns (addError c e) (Some e)
        else self (incr c)
    | writeAction data original =>
        let e := ShouldWriteButClose (current c + 1) in
        Returns (addError c e) (Some e)
    | closeAction => Returns (set_closed (incr c) true) None
    | nullAction => Returns (set_closed c true) None
    end.

Fixpoint Close_fuel (fuel : nat) (c : Conn) : outcome (option error) :=
  match fuel with
  | 0 => OutOfFuel
  | S fuel' => Close_body (Close_fuel fuel') c
  end.

Definition Close (c : Conn) : outcome (option error) :=
  Close_fuel (S (length (scenario c))) c.

(** [Verify] has no recursion and no unguarded index: it is a plain
    function to the connection it leaves and the slice it returns. *)
Definition Verify (c : Conn) : Conn * list error :=
  let errors0 := errors c in
  let c1 :=
    match getAction c (current c) with
    | readAction data original =>
        incr (if 0 <? length data
              then addError c (RemainedToRead (current c + 1) data)
              else c)
    | writeAction data original =>
        incr (addError c (RemainedToWrite (current c + 1) data))
    | _ => c
    end in
  let c2 :=
    if current c1 <? length (scenario c1)
    then addError c1 (Unconsumed (length (scenario c1) - current c1) (length (scenario c1)))
    else c1 in
  let result := errors c2 in
  (set_errors c2 errors0, result).

(** The address accessors.  The source takes any [net.Addr]; the addresses
    that [New] installs are TCP addresses and the model keeps to those. *)
Definition SetLocalAddr (c : Conn) (addr : TCPAddr) : Conn :=
  mkConn (t c) (errors c) (scenario c) (current c) addr (remoteAddr c) (closed c).

Definition SetRemoteAddr (c : Conn) (addr : TCPAddr) : Conn :=
  mkConn (t c) (errors c) (scenario c) (current c) (localAddr c) addr (closed c).

Definition LocalAddr (c : Conn) : TCPAddr := localAddr c.

Definition RemoteAddr (c : Conn) : TCPAddr := remoteAddr c.

(** The deadline setters ignore the time (here a count of nanoseconds) and
    change nothing; their error is [errors.New("closed")], kept as its
    message. *)
Definition SetDeadline (c : Conn) (time : Z) : option string :=
  if closed c then Some "closed"%string else None.

Definition SetReadDeadline (c : Conn) (time : Z) : option string :=
  if closed c then Some "closed"%string else None.

Definition SetWriteDeadline (c : Conn) (time : Z) : option string :=
  if closed c then Some "closed"%string else None.

(** The summary that [Verify] hands to [t.Log] when a test is attached, as
    the loop builds it from the connection [Verify] leaves: one line per
    action, with the label ([true] for OK, [false] for NG), the number
    printed (the source prints [c.current+1] on every line), the method
    named, and the text of [logText]; the line of a close action has no
    text (its format is given no argument for it).  [None] when [logText]
    panics. *)
Definition summary_line (c : Conn) (i : nat) (a : Action)
    : option (list (bool * nat * ActionType * list (colour * list byte))) :=
  let ok := negb (current c <=? i) in
  match a with
  | readAction data original =>
      text ← logText ok original data; Some [(ok, current c + 1, ReadActionType, text)]
  | writeAction data original =>
      text ← logText ok original data; Some [(ok, current c + 1, WriteActionType, text)]
  | closeAction => Some [(ok, current c + 1, CloseActionType, [])]
  | nullAction => Some []
  end.

Fixpoint summary_from (c : Conn) (i : nat) (rest : list Action)
    : option (list (bool * nat * ActionType * list (colour * list byte))) :=
  match rest with
  | [] => Some []
  | a :: rest' =>
      line ← summary_line c i a;
      lines ← summary_from c (S i) rest';
      Some (line ++ lines)
  end.

Definition summary (c : Conn) : option (list (bool * nat * ActionType * list (colour * list byte))) :=
  summary_from c 0 (scenario c).

End Conn.

(** ** Calls as data

    A test is a sequence of calls on one connection; [Op] names a call with
    its argument and [call] runs it, keeping the returned error. *)
Inductive Op : Type :=
  | OpRead (b : list byte)
  | OpWrite (b : list byte)
  | OpClose.

Definition call (op : Op) (c : Conn) : outcome (option error) :=
  match op with
  | OpRead b =>
      match Conn.Read c b with
      | Returns c' (_, _, err) => Returns c' err
      | Panics c' => Panics c'
      | OutOfFuel => OutOfFuel
      end
  | OpWrite b =>
      match Conn.Write c b with
      | Returns c' (_, err) => Returns c' err
      | Panics c' => Panics c'
      | OutOfFuel => OutOfFuel
      end
  | OpClose => Conn.Close c
  end.

(** The results of the calls [ops], made one after the other; a call that
    does not return ends the run. *)
Fixpoint calls (ops : list Op) (c : Conn) : list (outcome (option error)) :=
  match ops with
  | [] => []
  | op :: ops' =>
      let r := call op c in
      r :: match r with
           | Returns c' _ => calls ops' c'
           | _ => []
           end
  end.

(** The results of sending the chunks one after the other. *)
Fixpoint Write_chunks (chunks : list (list byte)) (c : Conn)
    : list (outcome (nat * option error)) :=
  match chunks with
  | [] => []
  | chunk :: chunks' =>
      let r := Conn.Write c chunk in
      r :: match r with
           | Returns c' _ => Write_chunks chunks' c'
           | _ => []
           end
  end.

(** The data an action holds. *)
Definition data_of (a : Action) : list byte :=
  match a with
  | readAction data _ => data
  | writeAction data _ => data
  | _ => []
  end.

Definition is_read (a : Action) : bool :=
  match a with readAction _ _ => true | _ => false end.

(** ** The scenario as a slice of pointers

    [c.scenario] holds pointers, and one action struct may sit in several
    slots ([a := Read(x); c.SetExpectedActions(a, a)]): what is drained
    through one slot is then gone from the others.  Module [Ptr] keeps the
    structs ([objects], by address) and the slice of addresses ([scenario])
    apart; its methods are the methods of [Conn] with the struct read and
    assigned through the pointer that [getAction] returns. *)
Module Ptr.

Record Conn : Type := mkConn {
  t : option (list error);
  errors : list error;
  objects : list Action;
  scenario : list nat;
  current : nat;
  localAddr : TCPAddr;
  remoteAddr : TCPAddr;
  closed : bool
}.

Inductive outcome (A : Type) : Type :=
  | Returns (c : Conn) (r : A)
  | Panics (c : Conn)
  | OutOfFuel.
Arguments Returns {A} c r.
Arguments Panics {A} c.
Arguments OutOfFuel {A}.

(** [c.current++] *)
Definition incr (c : Conn) : Conn :=
  mkConn (t c) (errors c) (objects c) (scenario c) (current c + 1)
         (localAddr c) (remoteAddr c) (closed c).

Definition addError (c : Conn) (err : error) : Conn :=
  mkConn ((fun log => log ++ [err]) <$> t c) (errors c ++ [err]) (objects c) (scenario c)
         (current c) (localAddr c) (remoteAddr c) (closed c).

(** [getAction] returns the pointer in slot [i], or ([None]) a pointer to a
    new [nullAction]. *)
Definition getAction (c : Conn) (i : nat) : option nat := scenario c !! i.

(** The struct behind a pointer that [getAction] returned.  (Every address
    in a slot is the address of a struct; the model reads a null action at
    any other.) *)
Definition deref (c : Conn) (p : option nat) : Action :=
  match p with
  | Some q => default nullAction (objects c !! q)
  | None => nullAction
  end.

(** Assignment to a field of the struct behind the pointer. *)
Definition assign (c : Conn) (p : option nat) (a : Action) : Conn :=
  match p with
  | Some q =>
      mkConn (t c) (errors c) (<[q := a]> (objects c)) (scenario c) (current c)
             (localAddr c) (remoteAddr c) (closed c)
  | None => c
  end.

(** The body of [Read]; [self] is the call [c.Read(b)]. *)
Definition Read_body (self : Conn -> list byte -> outcome (list byte * nat * option error))
    (c : Conn) (b : list byte) : outcome (list byte * nat * option error) :=
  if closed c then Returns c (b, 0, Some AlreadyClosed)
  else
    let p := getAction c (current c) in
    match deref c p with
    | readAction data original =>
        if 0 <? length data then
          let n := length b `min` length data in
          Returns (assign c p (readAction (drop n data) original))
                  (take n data ++ drop n b, n, None)
        else
          match Type_ (deref c (getAction c (current c + 1))) with
          | ReadActionType => self (incr c) b
          | _ => Returns c (b, 0, None)
          end
    | writeAction data original =>
        if length data =? 0 then
          let c' := incr c in
          match scenario c' !! current c' with
          | Some _ => Returns c' (b, 0, None)
          | None => Panics c'
          end
        else
          let e := ShouldCloseButRead (current c + 1) in
          Returns (addError c e) (b, 0, Some e)
    | closeAction =>
        let e := ShouldCloseButRead (current c + 1) in
        Returns (addError c e) (b, 0, Some e)
    | nullAction => Returns c (b, 0, None)
    end.

Fixpoint Read_fuel (fuel : nat) (c : Conn) (b : list byte)
    : outcome (list byte * nat * option error) :=
  match fuel with
  | 0 => OutOfFuel
  | S fuel' => Read_body (Read_fuel fuel') c b
  end.

Definition Read (c : Conn) (b : list byte) : outcome (list byte * nat * option error) :=
  Read_fuel (S (length (scenario c))) c b.

(** [k] calls of [Read], each with a fresh buffer of [C] zero bytes as
    [make([]byte, C)] gives it: the bytes [b[:n]] the calls delivered, put
    end to end, and the connection after the last call.  [None] when a call
    fails or does not return. *)
Fixpoint Read_stream (k C : nat) (c : Conn) : option (list byte * Conn) :=
  match k with
  | 0 => Some ([], c)
  | S k' =>
      match Read c (replicate C Byte.x00) with
      | Returns c' (b', n, None) =>
          match Read_stream k' C c' with
          | Some (rest, c'') => Some (take n b' ++ rest, c'')
          | None => None
          end
      | _ => None
      end
  end.

(** The body of [Write]; the result is [n] and [err]. *)
Definition Write_body (self : Conn -> list byte -> outcome (nat * option error))
    (c : Conn) (b : list byte) : outcome (nat * option error) :=
  if closed c then Returns c (0, Some AlreadyClosed)
  else
    let p := getAction c (current c) in
    match deref c p with
    | readAction data original =>
        if 0 <? length data then
          let e := ShouldReadButWrite (current c + 1) in
          Returns (addError c e) (0, Some e)
        else self (incr c) b
    | writeAction data original =>
        let mismatch := WriteMismatch (current c + 1) data b in
        if length b <=? length data then
          match same b data with
          | None => Panics c
          | Some false => Returns (addError c mismatch) (0, Some mismatch)
          | Some true =>
              if length b =? length data then Returns (incr c) (length b, None)
              else Returns (assign c p (writeAction (drop (length b) data) original))
                           (length b, None)
          end
        else Returns (addError c mismatch) (0, Some mismatch)
    | closeAction =>
        let e := ShouldCloseButWrite (current c + 1) in
        Returns (addError c e) (0, Some e)
    | nullAction => Returns c (0, None)
    end.

Fixpoint Write_fuel (fuel : nat) (c : Conn) (b : list byte) : outcome (nat * option error) :=
  match fuel with
  | 0 => OutOfFuel
  | S fuel' => Write_body (Write_fuel fuel') c b
  end.

Definition Write (c : Conn) (b : list byte) : outcome (nat * option error) :=
  Write_fuel (S (length (scenario c))) c b.

(** [c.closed = true] *)
Definition close (c : Conn) : Conn :=
  mkConn (t c) (errors c) (objects c) (scenario c) (current c)
         (localAddr c) (remoteAddr c) true.

(** The body of [Close]; the result is the returned error. *)
Definition Close_body (self : Conn -> outcome (option error)) (c : Conn)
    : outcome (option error) :=
  if closed c then Returns c (Some AlreadyClosed)
  else
    match deref c (getAction c (current c)) with
    | readAction data original =>
        if 0 <? length data then
          let e := ShouldReadButClose (current c + 1) in
          Returns (addError c e) (Some e)
        else self (incr c)
    | writeAction data original =>
        let e := ShouldWriteButClose (current c + 1) in
        Returns (addError c e) (Some e)
    | closeAction => Returns (close (incr c)) None
    | nullAction => Returns (close c) None
    end.

Fixpoint Close_fuel (fuel : nat) (c : Conn) : outcome (option error) :=
  match fuel with
  | 0 => OutOfFuel
  | S fuel' => Close_body (Close_fuel fuel') c
  end.

Definition Close (c : Conn) : outcome (option error) :=
  Close_fuel (S (length (scenario c))) c.

(** [Verify] reads the struct under the cursor and assigns to none. *)
Definition Verify (c : Conn) : Conn * list error :=
  let errors0 := errors c in
  let c1 :=
    match deref c (getAction c (current c)) with
    | readAction data original =>
        incr (if 0 <? length data
              then addError c (RemainedToRead (current c + 1) data)
              else c)
    | writeAction data original =>
        incr (addError c (RemainedToWrite (current c + 1) data))
    | _ => c
    end in
  let c2 :=
    if current c1 <? length (scenario c1)
    then addError c1 (Unconsumed (length (scenario c1) - current c1) (length (scenario c1)))
    else c1 in
  let result := errors c2 in
  (mkConn (t c2) errors0 (objects c2) (scenario c2) (current c2)
          (localAddr c2) (remoteAddr c2) (closed c2), result).

(** A call, and the connection after the calls [ops] when all of them
    return. *)
Definition call (op : Op) (c : Conn) : outcome (option error) :=
  match op with
  | OpRead b =>
      match Read c b with
      | Returns c' (_, _, err) => Returns c' err
      | Panics c' => Panics c'
      | OutOfFuel => OutOfFuel
      end
  | OpWrite b =>
      match Write c b with
      | Returns c' (_, err) => Returns c' err
      | Panics c' => Panics c'
      | OutOfFuel => OutOfFuel
      end
  | OpClose => Close c
  end.

Fixpoint run (ops : list Op) (c : Conn) : option Conn :=
  match ops with
  | [] => Some c
  | op :: ops' =>
      match call op c with
      | Returns c' _ => run ops' c'
      | _ => None
      end
  end.

(** A scenario of read actions only. *)
Definition all_reads (c : Conn) : Prop :=
  Forall (fun q => exists data original, objects c !! q = Some (readAction data original))
         (scenario c).

(** Every slot holds the address of a struct, and no two slots the same
    one: what [SetExpectedActions] gets when each argument is built by a
    call of [Read], [Write] or [Close] of its own. *)
Definition distinct (c : Conn) : Prop :=
  NoDup (scenario c) /\ Forall (fun q => q < length (objects c)) (scenario c).

End Ptr.

(** The scenario of action values that a slice of pointers stands for, and
    the connection with that scenario. *)
Definition view (c : Ptr.Conn) : Conn :=
  mkConn (Ptr.t c) (Ptr.errors c)
         ((fun q => default nullAction (Ptr.objects c !! q)) <$> Ptr.scenario c)
         (Ptr.current c) (Ptr.localAddr c) (Ptr.remoteAddr c) (Ptr.closed c).

Definition view_outcome {A} (r : Ptr.outcome A) : outcome A :=
  match r with
  | Ptr.Returns c a => Returns (view c) a
  | Ptr.Panics c => Panics (view c)
  | Ptr.OutOfFuel => OutOfFuel
  end.

(** The data of the struct at an address. *)
Definition data_at (objects : list Action) (q : nat) : list byte :=
  match objects !! q with
  | Some (readAction data _) => data
  | Some (writeAction data _) => data
  | _ => []
  end.

(** A struct with its data drained. *)
Definition drained (a : Action) : Action :=
  match a with
  | readAction _ original => readAction [] original
  | writeAction _ original => writeAction [] original
  | _ => a
  end.

(** The bytes a drain of the slots delivers, slot by slot in the order of
    the scenario: the data of the struct a slot points to, as it is when the
    slot is reached, that is, after the slots before it have been drained. *)
Fixpoint stream (objects : list Action) (slots : list nat) : list byte :=
  match slots with
  | [] => []
  | q :: rest =>
      data_at objects q ++
      stream (match objects !! q with
              | Some a => <[q := drained a]> objects
              | None => objects
              end) rest
  end.

(** The bytes still to be delivered from the cursor on. *)
Definition pending (c : Ptr.Conn) : list byte :=
  stream (Ptr.objects c) (drop (Ptr.current c) (Ptr.scenario c)).

(** What the slots from the cursor on declare: the data of their structs,
    slot by slot. *)
Definition declared (c : Ptr.Conn) : list byte :=
  concat (data_at (Ptr.objects c) <$> drop (Ptr.current c) (Ptr.scenario c)).

(** ** What [Verify] adds, in the words of its description

    The leftover diagnostic of the action under the cursor, the cursor after
    that step, and the summary of what is unconsumed. *)
Definition leftover (c : Conn) : list error :=
  match Conn.getAction c (current c) with
  | readAction data _ =>
      match data with
      | [] => []
      | _ :: _ => [RemainedToRead (current c + 1) data]
      end
  | writeAction data _ => [RemainedToWrite (current c + 1) data]
  | _ => []
  end.

Definition cursor_after_leftover (c : Conn) : nat :=
  match Conn.getAction c (current c) with
  | readAction _ _ | writeAction _ _ => current c + 1
  | _ => current c
  end.

Definition unconsumed (c : Conn) : list error :=
  let n := length (scenario c) in
  let k := cursor_after_leftover c in
  if decide (k < n) then [Unconsumed (n - k) n] else [].

Definition synthesized (c : Conn) : list error := leftover c ++ unconsumed c.

(** When a call passes an action: what that action then looks like. *)
Definition discharged (op : Op) (a : Action) : Prop :=
  match op with
  | OpRead _ => (exists o, a = readAction [] o) \/ (exists o, a = writeAction [] o)
  | OpWrite b => (exists o, a = readAction [] o) \/ (exists o, a = writeAction b o)
  | OpClose => (exists o, a = readAction [] o) \/ a = closeAction
  end.

Definition bytes (s : string) : list byte := list_byte_of_string s.

(** ** Scenarios of the tests and examples *)

Definition hello_world_close : Conn :=
  SetExpectedActions (New None) [Read (bytes "hello world"); Close].

Definition hello_close : Conn :=
  SetExpectedActions (New None) [Write (bytes "hello!!"); Close].

Definition helloworld_close : Conn :=
  SetExpectedActions (New None) [Write (bytes "helloworld"); Close].

Definition empty_write_then_read : Conn :=
  SetExpectedActions (New None) [Write []; Read (bytes "abc")].

Definition empty_write_last : Conn :=
  SetExpectedActions (New None) [Write []].

Definition empty_read_then_close : Conn :=
  SetExpectedActions (New None) [Read []; Close].

(** Two read actions, each a struct of its own; and one read action listed
    twice, as [a := Read("ab"); SetExpectedActions(a, a)] installs it. *)
Definition sun_mon : Ptr.Conn :=
  Ptr.mkConn None [] [Read (bytes "sun"); Read (bytes "mon")] [0; 1] 0
             (mkTCPAddr (127, 0, 0, 1)%N 12345%N) (mkTCPAddr (127, 0, 0, 1)%N 8080%N) false.

Definition ab_twice : Ptr.Conn :=
  Ptr.mkConn None [] [Read (bytes "ab")] [0; 0] 0
             (mkTCPAddr (127, 0, 0, 1)%N 12345%N) (mkTCPAddr (127, 0, 0, 1)%N 8080%N) false.

(** ** Notions for the behaviour of whole runs *)

Definition original_of (a : Action) : list byte :=
  match a with
  | readAction _ original => original
  | writeAction _ original => original
  | _ => []
  end.

(** An action before and after some calls: the same kind of action with the
    same original bytes, and of its data an end piece is left. *)
Definition evolves (a a' : Action) : Prop :=
  Type_ a' = Type_ a /\ original_of a' = original_of a /\
  data_of a' `suffix_of` data_of a.

(** The scenarios a test can install and the calls can lead to: every slot
    is a read, write or close action, and its data is an end piece of its
    original bytes. *)
Definition well_formed (c : Conn) : Prop :=
  Forall (fun a => a <> nullAction /\ data_of a `suffix_of` original_of a) (scenario c).

(** The error a call adds to [c.errors]: the one it returns, unless that is
    the already-closed error. *)
Definition recorded (r : option error) : list error :=
  match r with
  | None => []
  | Some AlreadyClosed => []
  | Some e => [e]
  end.

(** What a call leaves alone, and what it appends. *)
Definition frame (c c' : Conn) (new : list error) : Prop :=
  localAddr c' = localAddr c /\ remoteAddr c' = remoteAddr c /\
  errors c' = errors c ++ new /\
  t c' = (fun log => log ++ new) <$> t c /\
  Forall2 evolves (scenario c) (scenario c') /\
  (current c <= length (scenario c) -> current c' <= length (scenario c')).

(** The connection after the calls [ops], when all of them return. *)
Fixpoint run (ops : list Op) (c : Conn) : option Conn :=
  match ops with
  | [] => Some c
  | op :: ops' =>
      match call op c with
      | Returns c' _ => run ops' c'
      | _ => None
      end
  end.

(** The first position from [i] on that does not hold a read action without
    data. *)
Fixpoint skip_reads (i : nat) (rest : list Action) : nat :=
  match rest with
  | readAction [] _ :: rest' => skip_reads (S i) rest'
  | _ => i
  end.

Definition after_empty_reads (c : Conn) : nat :=
  skip_reads (current c) (drop (current c) (scenario c)).

(** The calls a scenario scripts, one per action: a [Read] with a buffer as
    long as the data, a [Write] of the data, a [Close]. *)
Definition scripted (a : Action) : list Op :=
  match a with
  | readAction data _ => [OpRead (replicate (length data) Byte.x00)]
  | writeAction data _ => [OpWrite data]
  | closeAction => [OpClose]
  | nullAction => []
  end.

(** Read and write actions with data, and a close action in the last place
    only. *)
Fixpoint playable (actions : list Action) : Prop :=
  match actions with
  | [] => True
  | a :: rest =>
      match a with
      | readAction data _ => data <> []
      | writeAction data _ => data <> []
      | closeAction => rest = []
      | nullAction => False
      end /\ playable rest
  end.
(** * Basic facts *)

Section Fields.
Context (c : Conn).

Lemma getAction_lookup i a :
  scenario c !! i = Some a -> Conn.getAction c i = a.
Proof. unfold Conn.getAction. by intros ->. Qed.

Lemma getAction_not_null i :
  Conn.getAction c i <> nullAction -> i < length (scenario c).
Proof.
  unfold Conn.getAction. destruct (scenario c !! i) eqn:E; [|done].
  intros _. by eapply lookup_lt_Some.
Qed.

Lemma getAction_is_lookup i a :
  Conn.getAction c i = a -> a <> nullAction -> scenario c !! i = Some a.
Proof.
  unfold Conn.getAction. destruct (scenario c !! i); intros <-; congruence.
Qed.

End Fields.

Lemma same_prefix b data :
  length b <= length data ->
  same b data = Some (bool_decide (b = take (length b) data)).
Proof.
  revert data. induction b as [|ch b IH]; intros [|d data] Hlen; simpl in *; try lia.
  - done.
  - done.
  - destruct (Byte.eqb ch d) eqn:E.
    + apply byte_dec_bl in E as ->. rewrite IH by lia.
      f_equal. apply bool_decide_ext. split; [by intros <- | congruence].
    + apply Byte.eqb_false in E. f_equal. symmetry. apply bool_decide_eq_false.
      congruence.
Qed.

(** ** The recursion budget never decides a result *)

Lemma Read_fuel_enough f f' c b :
  length (scenario c) - current c < f ->
  length (scenario c) - current c < f' ->
  Conn.Read_fuel f c b = Conn.Read_fuel f' c b /\ Conn.Read_fuel f c b <> OutOfFuel.
Proof.
  revert f' c. induction f as [|f IH]; intros [|f'] c Hf Hf'; try lia.
  simpl. unfold Conn.Read_body.
  destruct (closed c); [done|].
  destruct (Conn.getAction c (current c)) as [data o|data o| |] eqn:Ea; try done.
  - destruct (0 <? length data); [done|].
    destruct (Conn.getAction c (current c + 1)) eqn:En; simpl; try done.
    assert (current c + 1 < length (scenario c)).
    { apply getAction_not_null. by rewrite En. }
    apply IH; simpl; lia.
  - destruct (length data =? 0); [|done].
    by destruct (scenario (incr c) !! current (incr c)).
Qed.

Lemma Write_fuel_enough f f' c b :
  length (scenario c) - current c < f ->
  length (scenario c) - current c < f' ->
  Conn.Write_fuel f c b = Conn.Write_fuel f' c b /\ Conn.Write_fuel f c b <> OutOfFuel.
Proof.
  revert f' c. induction f as [|f IH]; intros [|f'] c Hf Hf'; try lia.
  simpl. unfold Conn.Write_body.
  destruct (closed c); [done|].
  destruct (Conn.getAction c (current c)) as [data o|data o| |] eqn:Ea; try done.
  - destruct (0 <? length data); [done|].
    assert (current c < length (scenario c)).
    { apply getAction_not_null. by rewrite Ea. }
    apply IH; simpl; lia.
  - destruct (length b <=? length data); [|done].
    destruct (same b data) as [[]|]; try done.
    by destruct (length b =? length data).
Qed.

Lemma Close_fuel_enough f f' c :
  length (scenario c) - current c < f ->
  length (scenario c) - current c < f' ->
  Conn.Close_fuel f c = Conn.Close_fuel f' c /\ Conn.Close_fuel f c <> OutOfFuel.
Proof.
  revert f' c. induction f as [|f IH]; intros [|f'] c Hf Hf'; try lia.
  simpl. unfold Conn.Close_body.
  destruct (closed c); [done|].
  destruct (Conn.getAction c (current c)) as [data o|data o| |] eqn:Ea; try done.
  destruct (0 <? length data); [done|].
  assert (current c < length (scenario c)).
  { apply getAction_not_null. by rewrite Ea. }
  apply IH; simpl; lia.
Qed.

(** ** The methods satisfy the equations of their bodies *)

Lemma Read_unfold c b : Conn.Read c b = Conn.Read_body Conn.Read c b.
Proof.
  unfold Conn.Read at 1. simpl. unfold Conn.Read_body.
  destruct (closed c); [done|].
  destruct (Conn.getAction c (current c)) as [data o|data o| |] eqn:Ea; try done.
  destruct (0 <? length data); [done|].
  destruct (Conn.getAction c (current c + 1)) eqn:En; simpl; try done.
  assert (current c + 1 < length (scenario c)).
  { apply getAction_not_null. by rewrite En. }
  unfold Conn.Read. apply Read_fuel_enough; simpl; lia.
Qed.

Lemma Write_unfold c b : Conn.Write c b = Conn.Write_body Conn.Write c b.
Proof.
  unfold Conn.Write at 1. simpl. unfold Conn.Write_body.
  destruct (closed c); [done|].
  destruct (Conn.getAction c (current c)) as [data o|data o| |] eqn:Ea; try done.
  destruct (0 <? length data); [done|].
  assert (current c < length (scenario c)).
  { apply getAction_not_null. by rewrite Ea. }
  unfold Conn.Write. apply Write_fuel_enough; simpl; lia.
Qed.

Lemma Close_unfold c : Conn.Close c = Conn.Close_body Conn.Close c.
Proof.
  unfold Conn.Close at 1. simpl. unfold Conn.Close_body.
  destruct (closed c); [done|].
  destruct (Conn.getAction c (current c)) as [data o|data o| |] eqn:Ea; try done.
  destruct (0 <? length data); [done|].
  assert (current c < length (scenario c)).
  { apply getAction_not_null. by rewrite Ea. }
  unfold Conn.Close. apply Close_fuel_enough; simpl; lia.
Qed.

Lemma Read_no_OutOfFuel c b : Conn.Read c b <> OutOfFuel.
Proof. unfold Conn.Read. apply (Read_fuel_enough _ (S (length (scenario c)))); simpl; lia. Qed.

Lemma Write_no_OutOfFuel c b : Conn.Write c b <> OutOfFuel.
Proof. unfold Conn.Write. apply (Write_fuel_enough _ (S (length (scenario c)))); simpl; lia. Qed.

Lemma Close_no_OutOfFuel c : Conn.Close c <> OutOfFuel.
Proof. unfold Conn.Close. apply (Close_fuel_enough _ (S (length (scenario c)))); simpl; lia. Qed.

(** * The closed latch *)

Lemma Close_success_closed c0 c :
  Conn.Close c0 = Returns c None -> closed c = true.
Proof.
  unfold Conn.Close. generalize (S (length (scenario c0))) as f.
  intros f; revert c0. induction f as [|f IH]; intros c0; simpl; [done|].
  unfold Conn.Close_body.
  destruct (closed c0); [done|].
  destruct (Conn.getAction c0 (current c0)) as [data o|data o| |]; try done.
  - destruct (0 <? length data); [done|]. apply IH.
  - by intros [= <-].
  - by intros [= <-].
Qed.

Lemma calls_closed ops c :
  closed c = true ->
  Forall (fun r => r = Returns c (Some AlreadyClosed)) (calls ops c).
Proof.
  intros Hc. induction ops as [|op ops IH]; simpl; [constructor|].
  assert (call op c = Returns c (Some AlreadyClosed)) as ->.
  { destruct op; simpl.
    - rewrite Read_unfold. unfold Conn.Read_body. by rewrite Hc.
    - rewrite Write_unfold. unfold Conn.Write_body. by rewrite Hc.
    - rewrite Close_unfold. unfold Conn.Close_body. by rewrite Hc. }
  by constructor.
Qed.

(** C7. After a successful [Close] the latch is set, and from then on every
    [Read], [Write] and [Close] returns the already-closed error and leaves
    the whole connection (cursor, scenario, latch, error list, test log) as
    it was; so does every call of any later sequence of calls. *)
Theorem C7_closed_calls_fail_unchanged (c0 c : Conn)
    (Hclose : Conn.Close c0 = Returns c None) :
  closed c = true /\
  (forall b, Conn.Read c b = Returns c (b, 0, Some AlreadyClosed)) /\
  (forall b, Conn.Write c b = Returns c (0, Some AlreadyClosed)) /\
  Conn.Close c = Returns c (Some AlreadyClosed) /\
  (forall ops, length (calls ops c) = length ops /\
               Forall (fun r => r = Returns c (Some AlreadyClosed)) (calls ops c)).
Proof.
  pose proof (Close_success_closed _ _ Hclose) as Hc.
  split; [done|]. repeat split.
  - intros b. rewrite Read_unfold. unfold Conn.Read_body. by rewrite Hc.
  - intros b. rewrite Write_unfold. unfold Conn.Write_body. by rewrite Hc.
  - rewrite Close_unfold. unfold Conn.Close_body. by rewrite Hc.
  - pose proof (calls_closed ops c Hc) as HF.
    induction ops as [|op ops IH]; simpl in *; [done|].
    inversion HF as [|? ? Hr HF' [Hr' Hl]]. rewrite Hr in *. simpl. f_equal. by apply IH.
  - by apply calls_closed.
Qed.

Lemma C7_witness :
  let c0 := set_current hello_world_close 1 in
  let c := set_closed (incr c0) true in
  closed c = true /\
  (forall b, Conn.Read c b = Returns c (b, 0, Some AlreadyClosed)) /\
  (forall b, Conn.Write c b = Returns c (0, Some AlreadyClosed)) /\
  Conn.Close c = Returns c (Some AlreadyClosed) /\
  (forall ops, length (calls ops c) = length ops /\
               Forall (fun r => r = Returns c (Some AlreadyClosed)) (calls ops c)).
Proof.
  intros c0 c. apply (C7_closed_calls_fail_unchanged c0 c). reflexivity.
Defined.

(** * Receiving from a pending read action *)

(** C8. On an open connection whose action at the cursor is a read action
    with data left, [Read] with a buffer of [length b] bytes copies the first
    [min (length b) (length data)] bytes of the data over the front of the
    buffer, cuts them off the action, returns that count and no error, and
    leaves the cursor, the error list and the latch alone, also when nothing
    is left of the data. *)
Theorem C8_Read_pending (c : Conn) (b data original : list byte)
    (Hopen : closed c = false)
    (Hact : scenario c !! current c = Some (readAction data original))
    (Hdata : data <> []) :
  let n := length b `min` length data in
  let c' := set_action c (current c) (readAction (drop n data) original) in
  Conn.Read c b = Returns c' (take n data ++ drop n b, n, None) /\
  scenario c' !! current c = Some (readAction (drop n data) original) /\
  length (drop n data) = length data - n /\
  current c' = current c /\ errors c' = errors c /\ closed c' = false.
Proof.
  intros n c'. repeat split; try done.
  - rewrite Read_unfold. unfold Conn.Read_body.
    rewrite Hopen, (getAction_lookup _ _ _ Hact).
    destruct data; [done|]. done.
  - subst c'. simpl. apply list_lookup_insert_eq. by eapply lookup_lt_Some.
  - apply length_drop.
Qed.

Lemma C8_witness :
  let c := hello_world_close in
  let b := replicate 5 Byte.x00 in
  Conn.Read c b =
    Returns (set_action c 0 (readAction (bytes " world") (bytes "hello world")))
            (bytes "hello", 5, None).
Proof.
  intros c b.
  refine (proj1 (C8_Read_pending c b (bytes "hello world") (bytes "hello world") _ _ _));
    [reflexivity | reflexivity | discriminate].
Defined.

(** * Sending against a write action *)

Lemma Write_on_write c b data original :
  closed c = false ->
  scenario c !! current c = Some (writeAction data original) ->
  Conn.Write c b =
    if bool_decide (length b <= length data /\ b = take (length b) data) then
      if bool_decide (length b = length data) then Returns (incr c) (length b, None)
      else Returns (set_action c (current c) (writeAction (drop (length b) data) original))
                   (length b, None)
    else
      let e := WriteMismatch (current c + 1) data b in
      Returns (Conn.addError c e) (0, Some e).
Proof.
  intros Hopen Hact. rewrite Write_unfold. unfold Conn.Write_body.
  rewrite Hopen, (getAction_lookup _ _ _ Hact).
  destruct (Nat.leb_spec (length b) (length data)) as [Hle|Hgt].
  - rewrite same_prefix by done.
    destruct (decide (b = take (length b) data)) as [Hp|Hp].
    + rewrite !bool_decide_eq_true_2 by done.
      destruct (Nat.eqb_spec (length b) (length data)) as [He|He].
      * by rewrite bool_decide_eq_true_2.
      * by rewrite bool_decide_eq_false_2.
    + rewrite (bool_decide_eq_false_2 (b = _)) by done.
      rewrite bool_decide_eq_false_2; [done|]. by intros [_ ?].
  - rewrite bool_decide_eq_false_2; [done|]. lia.
Qed.

(** C5. On an open connection whose action at the cursor is a write action,
    a [Write] of bytes that differ from the remaining data at some position,
    or that are longer than it, returns 0 and the mismatch error, appends
    exactly that one error (it records the remaining data and the bytes
    given), and changes neither the cursor nor the scenario; a [Write] of the
    whole remaining data right after it returns its length and no error and
    moves the cursor past the action. *)
Theorem C5_Write_mismatch (c : Conn) (b data original : list byte)
    (Hopen : closed c = false)
    (Hact : scenario c !! current c = Some (writeAction data original))
    (Hbad : (exists i x y, b !! i = Some x /\ data !! i = Some y /\ x <> y) \/
            length data < length b) :
  let e := WriteMismatch (current c + 1) data b in
  let c' := Conn.addError c e in
  Conn.Write c b = Returns c' (0, Some e) /\
  errors c' = errors c ++ [e] /\
  current c' = current c /\ scenario c' = scenario c /\ closed c' = false /\
  Conn.Write c' data = Returns (incr c') (length data, None) /\
  errors (incr c') = errors c ++ [e] /\ current (incr c') = current c + 1.
Proof.
  intros e c'. repeat split; try done.
  - rewrite (Write_on_write _ _ _ _ Hopen Hact).
    rewrite bool_decide_eq_false_2; [done|].
    intros [Hle Hp]. destruct Hbad as [(i & x & y & Hb & Hd & Hxy)|Hlen]; [|lia].
    apply Hxy. rewrite Hp in Hb.
    assert (i < length b) by (rewrite <- Hp in Hb; by eapply lookup_lt_Some).
    rewrite lookup_take_lt in Hb by done. congruence.
  - rewrite (Write_on_write c' data data original) by done.
    rewrite bool_decide_eq_true_2 by (split; [lia | by rewrite firstn_all]).
    by rewrite bool_decide_eq_true_2.
Qed.

Lemma C5_witness :
  let c := hello_close in
  let e := WriteMismatch 1 (bytes "hello!!") (bytes "good morning!!") in
  Conn.Write c (bytes "good morning!!") = Returns (Conn.addError c e) (0, Some e) /\
  Conn.Write (Conn.addError c e) (bytes "hello!!") = Returns (incr (Conn.addError c e)) (7, None).
Proof.
  intros c e.
  destruct (C5_Write_mismatch c (bytes "good morning!!") (bytes "hello!!") (bytes "hello!!"))
    as (H1 & _ & _ & _ & _ & H2 & _).
  - reflexivity.
  - reflexivity.
  - right. vm_compute. lia.
  - split; [exact H1 | exact H2].
Defined.

(** * Verification *)

Lemma Verify_result c :
  snd (Conn.Verify c) = errors c ++ synthesized c /\
  errors (fst (Conn.Verify c)) = errors c /\
  current (fst (Conn.Verify c)) = cursor_after_leftover c /\
  scenario (fst (Conn.Verify c)) = scenario c.
Proof.
  unfold Conn.Verify, synthesized, unconsumed, leftover, cursor_after_leftover.
  destruct (Conn.getAction c (current c)) as [[|d data] o|data o| |]; simpl;
    match goal with
    | |- context [?n <? ?m] =>
        destruct (Nat.ltb_spec n m);
        [rewrite decide_True by done | rewrite decide_False by lia]
    end; simpl; rewrite ?app_nil_r, <- ?app_assoc; done.
Qed.

(** C6. [Verify] returns the error list it found on entry followed by the
    diagnostics it makes up (the leftover data of the action under the
    cursor, then the summary of what is unconsumed), and leaves the
    connection with the error list it found on entry; a second [Verify]
    therefore returns that same entry list once, followed by the diagnostics
    made up for the connection as the first call left it. *)
Theorem C6_Verify_restores_baseline (c : Conn) :
  let c1 := fst (Conn.Verify c) in
  let c2 := fst (Conn.Verify c1) in
  snd (Conn.Verify c) = errors c ++ synthesized c /\
  errors c1 = errors c /\
  snd (Conn.Verify c1) = errors c ++ synthesized c1 /\
  errors c2 = errors c.
Proof.
  intros c1 c2.
  destruct (Verify_result c) as (Hr & He & _).
  destruct (Verify_result c1) as (Hr1 & He1 & _).
  subst c1 c2. rewrite Hr1, He1, He. by rewrite Hr.
Qed.

(** C1. The example of [Verify]: on the scenario [Write("hello!!"), Close()]
    a [Write] of "good morning!!" returns 0 and the mismatch error for
    expected "hello!!" and actual "good morning!!" and leaves the cursor at
    0; [Verify] then returns three errors, the mismatch, the data remained
    to write "hello!!" and the summary of the unconsumed scenario, and the
    summary it computes counts 1 of 2, since the cursor has been moved past
    the write action before the count. *)
Theorem C1_example_Verify :
  let c := hello_close in
  let e := WriteMismatch 1 (bytes "hello!!") (bytes "good morning!!") in
  length (bytes "good morning!!") = 14 /\
  Conn.Write c (bytes "good morning!!") = Returns (Conn.addError c e) (0, Some e) /\
  current (Conn.addError c e) = 0 /\
  snd (Conn.Verify (Conn.addError c e)) =
    [e; RemainedToWrite 1 (bytes "hello!!"); Unconsumed 1 2].
Proof. repeat split. Qed.

(** * Receiving at a satisfied write action *)

(** C2. On the scenario [Write(""), Read("abc")] a [Read] with a buffer of
    three bytes moves the cursor past the write action and returns 0 bytes
    and no error without looking at the read action: the buffer is as it
    was, and the three bytes come with the next [Read] only. *)
Theorem C2_Read_empty_write_no_retry :
  let c := empty_write_then_read in
  let b := replicate 3 Byte.x00 in
  scenario c !! current c = Some (writeAction [] []) /\
  closed c = false /\
  Conn.Read c b = Returns (incr c) (b, 0, None) /\
  scenario (incr c) !! current (incr c) = Some (readAction (bytes "abc") (bytes "abc")) /\
  Conn.Read (incr c) b =
    Returns (set_action (incr c) 1 (readAction [] (bytes "abc"))) (bytes "abc", 3, None).
Proof. repeat split. Qed.

(** C10. On the scenario [Write("")] a [Read] increments the cursor to 1 and
    then indexes the scenario of length 1 at 1: the call panics instead of
    returning, whatever the buffer. *)
Theorem C10_Read_empty_write_last_panics (b : list byte) :
  let c := empty_write_last in
  scenario c !! current c = Some (writeAction [] []) /\
  length (scenario c) = current c + 1 /\
  closed c = false /\
  Conn.Read c b = Panics (incr c).
Proof. repeat split. Qed.

(** [Read] panics in that one situation only: everywhere else it returns. *)
Lemma Read_fuel_no_panic f c b :
  (forall o, scenario c !! current c = Some (writeAction [] o) ->
             current c + 1 < length (scenario c)) ->
  forall c', Conn.Read_fuel f c b <> Panics c'.
Proof.
  revert c. induction f as [|f IH]; intros c Hnext c'; simpl; [done|].
  unfold Conn.Read_body.
  destruct (closed c); [done|].
  destruct (Conn.getAction c (current c)) as [data o|data o| |] eqn:Ea; try done.
  - destruct (0 <? length data); [done|].
    destruct (Conn.getAction c (current c + 1)) as [data' o'| | |] eqn:En; simpl; try done.
    apply IH. simpl. intros o2 Ho2.
    apply getAction_is_lookup in En; [|done]. congruence.
  - destruct (Nat.eqb_spec (length data) 0) as [Hz|Hz]; [|done].
    apply nil_length_inv in Hz as ->.
    apply getAction_is_lookup in Ea; [|done].
    specialize (Hnext _ Ea). simpl.
    destruct (lookup_lt_is_Some_2 (scenario c) (current c + 1) Hnext) as [a ->]. done.
Qed.

Lemma Write_fuel_no_panic f c b c' : Conn.Write_fuel f c b <> Panics c'.
Proof.
  revert c. induction f as [|f IH]; intros c; simpl; [done|].
  unfold Conn.Write_body.
  destruct (closed c); [done|].
  destruct (Conn.getAction c (current c)) as [data o|data o| |] eqn:Ea; try done.
  - destruct (0 <? length data); [done|]. apply IH.
  - destruct (Nat.leb_spec (length b) (length data)); [|done].
    rewrite same_prefix by done.
    destruct (bool_decide _); [|done]. by destruct (length b =? length data).
Qed.

Lemma Close_fuel_no_panic f c c' : Conn.Close_fuel f c <> Panics c'.
Proof.
  revert c. induction f as [|f IH]; intros c; simpl; [done|].
  unfold Conn.Close_body.
  destruct (closed c); [done|].
  destruct (Conn.getAction c (current c)) as [data o|data o| |] eqn:Ea; try done.
  destruct (0 <? length data); [done|]. apply IH.
Qed.

Lemma Read_returns c b :
  (forall o, scenario c !! current c = Some (writeAction [] o) ->
             current c + 1 < length (scenario c)) ->
  exists c' r, Conn.Read c b = Returns c' r.
Proof.
  intros Hnext. pose proof (Read_no_OutOfFuel c b) as Hf.
  pose proof (Read_fuel_no_panic (S (length (scenario c))) c b Hnext) as Hp.
  fold (Conn.Read c b) in Hp. destruct (Conn.Read c b); [eauto|by destruct (Hp c0)|done].
Qed.

Lemma Write_returns c b : exists c' r, Conn.Write c b = Returns c' r.
Proof.
  pose proof (Write_no_OutOfFuel c b) as Hf.
  pose proof (fun c' => Write_fuel_no_panic (S (length (scenario c))) c b c') as Hp.
  fold (Conn.Write c b) in Hp. destruct (Conn.Write c b); [eauto|by destruct (Hp c0)|done].
Qed.

Lemma Close_returns c : exists c' r, Conn.Close c = Returns c' r.
Proof.
  pose proof (Close_no_OutOfFuel c) as Hf.
  pose proof (fun c' => Close_fuel_no_panic (S (length (scenario c))) c c') as Hp.
  fold (Conn.Close c) in Hp. destruct (Conn.Close c); [eauto|by destruct (Hp c0)|done].
Qed.

(** * The cursor *)

Lemma empty_data (data : list byte) : (0 <? length data) = false -> data = [].
Proof. destruct data; [done|]. simpl. done. Qed.

Lemma Read_fuel_cursor f c b c' r :
  Conn.Read_fuel f c b = Returns c' r ->
  current c <= current c' /\
  forall i, current c <= i < current c' ->
            exists a, scenario c !! i = Some a /\ discharged (OpRead b) a.
Proof.
  revert c. induction f as [|f IH]; intros c; simpl; [done|].
  unfold Conn.Read_body.
  destruct (closed c); [intros [= <- _]; split; [lia | intros; lia]|].
  destruct (Conn.getAction c (current c)) as [data o|data o| |] eqn:Ea.
  - destruct (0 <? length data) eqn:Ed; [intros [= <- _]; simpl; split; [lia | intros; lia]|].
    apply empty_data in Ed as ->.
    destruct (Conn.getAction c (current c + 1)) eqn:En; simpl;
      try (intros [= <- _]; split; [lia | intros; lia]).
    intros Hr. destruct (IH _ Hr) as [Hle Hbetween]. simpl in *. split; [lia|].
    intros i Hi. destruct (decide (i = current c)) as [->|Hne].
    + exists (readAction [] o). split; [by apply getAction_is_lookup | left; eauto].
    + apply Hbetween. lia.
  - destruct (length data =? 0) eqn:Ed.
    + apply Nat.eqb_eq, nil_length_inv in Ed as ->.
      destruct (scenario (incr c) !! current (incr c)); [|done].
      intros [= <- _]. simpl. split; [lia|].
      intros i Hi. assert (i = current c) as -> by lia.
      exists (writeAction [] o). split; [by apply getAction_is_lookup | right; eauto].
    + intros [= <- _]; simpl; split; [lia | intros; lia].
  - intros [= <- _]; simpl; split; [lia | intros; lia].
  - intros [= <- _]; simpl; split; [lia | intros; lia].
Qed.

Lemma Write_fuel_cursor f c b c' r :
  Conn.Write_fuel f c b = Returns c' r ->
  current c <= current c' /\
  forall i, current c <= i < current c' ->
            exists a, scenario c !! i = Some a /\ discharged (OpWrite b) a.
Proof.
  revert c. induction f as [|f IH]; intros c; simpl; [done|].
  unfold Conn.Write_body.
  destruct (closed c); [intros [= <- _]; split; [lia | intros; lia]|].
  destruct (Conn.getAction c (current c)) as [data o|data o| |] eqn:Ea.
  - destruct (0 <? length data) eqn:Ed; [intros [= <- _]; simpl; split; [lia | intros; lia]|].
    apply empty_data in Ed as ->.
    intros Hr. destruct (IH _ Hr) as [Hle Hbetween]. simpl in *. split; [lia|].
    intros i Hi. destruct (decide (i = current c)) as [->|Hne].
    + exists (readAction [] o). split; [by apply getAction_is_lookup | left; eauto].
    + apply Hbetween. lia.
  - destruct (Nat.leb_spec (length b) (length data)) as [Hle|Hgt];
      [|intros [= <- _]; simpl; split; [lia | intros; lia]].
    rewrite same_prefix by done.
    destruct (decide (b = take (length b) data)) as [Hp|Hp].
    + rewrite bool_decide_eq_true_2 by done.
      destruct (Nat.eqb_spec (length b) (length data)) as [He|He].
      * intros [= <- _]. simpl. split; [lia|].
        intros i Hi. assert (i = current c) as -> by lia.
        exists (writeAction data o). split; [by apply getAction_is_lookup|].
        right. exists o. rewrite Hp, He. by rewrite firstn_all.
      * intros [= <- _]; simpl; split; [lia | intros; lia].
    + rewrite bool_decide_eq_false_2 by done.
      intros [= <- _]; simpl; split; [lia | intros; lia].
  - intros [= <- _]; simpl; split; [lia | intros; lia].
  - intros [= <- _]; simpl; split; [lia | intros; lia].
Qed.

Lemma Close_fuel_cursor f c c' r :
  Conn.Close_fuel f c = Returns c' r ->
  current c <= current c' /\
  forall i, current c <= i < current c' ->
            exists a, scenario c !! i = Some a /\ discharged OpClose a.
Proof.
  revert c. induction f as [|f IH]; intros c; simpl; [done|].
  unfold Conn.Close_body.
  destruct (closed c); [intros [= <- _]; split; [lia | intros; lia]|].
  destruct (Conn.getAction c (current c)) as [data o|data o| |] eqn:Ea.
  - destruct (0 <? length data) eqn:Ed; [intros [= <- _]; simpl; split; [lia | intros; lia]|].
    apply empty_data in Ed as ->.
    intros Hr. destruct (IH _ Hr) as [Hle Hbetween]. simpl in *. split; [lia|].
    intros i Hi. destruct (decide (i = current c)) as [->|Hne].
    + exists (readAction [] o). split; [by apply getAction_is_lookup | left; eauto].
    + apply Hbetween. lia.
  - intros [= <- _]; simpl; split; [lia | intros; lia].
  - intros [= <- _]. simpl. split; [lia|].
    intros i Hi. assert (i = current c) as -> by lia.
    exists closeAction. split; [by apply getAction_is_lookup | by right].
  - intros [= <- _]; simpl; split; [lia | intros; lia].
Qed.

(** Skipping: what a call does at a read action without data. *)
Lemma Read_skips_empty_read c b o :
  closed c = false ->
  scenario c !! current c = Some (readAction [] o) ->
  Conn.Read c b =
    if is_read (Conn.getAction c (current c + 1)) then Conn.Read (incr c) b
    else Returns c (b, 0, None).
Proof.
  intros Hopen Hact. rewrite Read_unfold at 1. unfold Conn.Read_body.
  rewrite Hopen, (getAction_lookup _ _ _ Hact). simpl.
  by destruct (Conn.getAction c (current c + 1)).
Qed.

Lemma Write_skips_empty_read c b o :
  closed c = false ->
  scenario c !! current c = Some (readAction [] o) ->
  Conn.Write c b = Conn.Write (incr c) b.
Proof.
  intros Hopen Hact. rewrite Write_unfold at 1. unfold Conn.Write_body.
  by rewrite Hopen, (getAction_lookup _ _ _ Hact).
Qed.

Lemma Close_skips_empty_read c o :
  closed c = false ->
  scenario c !! current c = Some (readAction [] o) ->
  Conn.Close c = Conn.Close (incr c).
Proof.
  intros Hopen Hact. rewrite Close_unfold at 1. unfold Conn.Close_body.
  by rewrite Hopen, (getAction_lookup _ _ _ Hact).
Qed.

Lemma Read_passes_empty_write c b o :
  closed c = false ->
  scenario c !! current c = Some (writeAction [] o) ->
  current c + 1 < length (scenario c) ->
  Conn.Read c b = Returns (incr c) (b, 0, None).
Proof.
  intros Hopen Hact Hnext. rewrite Read_unfold. unfold Conn.Read_body.
  rewrite Hopen, (getAction_lookup _ _ _ Hact). simpl.
  by destruct (lookup_lt_is_Some_2 (scenario c) (current c + 1) Hnext) as [a ->].
Qed.

Lemma call_cursor op c c' r :
  call op c = Returns c' r ->
  current c <= current c' /\
  forall i, current c <= i < current c' ->
            exists a, scenario c !! i = Some a /\ discharged op a.
Proof.
  destruct op as [b|b|]; simpl.
  - destruct (Conn.Read c b) as [c1 [[b' n] e]| |] eqn:E; try done.
    intros [= <- _]. by eapply Read_fuel_cursor.
  - destruct (Conn.Write c b) as [c1 [n e]| |] eqn:E; try done.
    intros [= <- _]. by eapply Write_fuel_cursor.
  - by apply Close_fuel_cursor.
Qed.

Lemma call_returns op c :
  (forall b o, op = OpRead b ->
               scenario c !! current c = Some (writeAction [] o) ->
               current c + 1 < length (scenario c)) ->
  exists c' r, call op c = Returns c' r.
Proof.
  intros Hnext. destruct op as [b|b|]; simpl.
  - destruct (Read_returns c b) as (c' & [[b' n] e] & ->); eauto.
  - destruct (Write_returns c b) as (c' & [n e] & ->); eauto.
  - apply Close_returns.
Qed.

(** C3, as the code has it.  On an open connection every [Read], [Write] and
    [Close] returns (the one [Read] set aside is the one at a write action
    without data that is the last action), the cursor never goes back, and
    every action the call moves the cursor past is one whose obligation is
    met at that moment: a read action without data, a write action without
    data ([Read]) or with exactly the bytes written ([Write]), a close action
    ([Close]).  At a read action without data [Write] and [Close] move on;
    [Read] moves on when the next action is a read action and otherwise
    returns with the connection unchanged.  At a write action without data
    [Read] moves the cursor by one. *)
Theorem C3_cursor_passes_discharged_actions (op : Op) (c : Conn)
    (Hopen : closed c = false)
    (Hnext : forall b o, op = OpRead b ->
                         scenario c !! current c = Some (writeAction [] o) ->
                         current c + 1 < length (scenario c)) :
  exists c' r,
    call op c = Returns c' r /\
    current c <= current c' /\
    (forall i, current c <= i < current c' ->
               exists a, scenario c !! i = Some a /\ discharged op a) /\
    (forall o, scenario c !! current c = Some (readAction [] o) ->
               match op with
               | OpRead _ =>
                   if is_read (Conn.getAction c (current c + 1))
                   then current c < current c'
                   else c' = c /\ r = None
               | _ => current c < current c'
               end) /\
    (forall o, scenario c !! current c = Some (writeAction [] o) ->
               match op with
               | OpRead _ => c' = incr c /\ r = None
               | _ => True
               end).
Proof.
  destruct (call_returns op c Hnext) as (c' & r & Hcall).
  exists c', r. split; [done|].
  destruct (call_cursor _ _ _ _ Hcall) as [Hle Hbetween].
  split; [done|]. split; [done|]. split.
  - intros o Hact. destruct op as [b|b|]; simpl in Hcall.
    + rewrite (Read_skips_empty_read _ _ _ Hopen Hact) in Hcall.
      destruct (is_read (Conn.getAction c (current c + 1))).
      * destruct (Conn.Read (incr c) b) as [c1 [[b' n] e]| |] eqn:E; try done.
        injection Hcall as <- _.
        apply Read_fuel_cursor in E as [E _]. simpl in E. lia.
      * by injection Hcall as <- <-.
    + rewrite (Write_skips_empty_read _ _ _ Hopen Hact) in Hcall.
      destruct (Conn.Write (incr c) b) as [c1 [n e]| |] eqn:E; try done.
      injection Hcall as <- _.
      apply Write_fuel_cursor in E as [E _]. simpl in E. lia.
    + rewrite (Close_skips_empty_read _ _ Hopen Hact) in Hcall.
      apply Close_fuel_cursor in Hcall as [E _]. simpl in E. lia.
  - intros o Hact. destruct op as [b|b|]; [|done|done]. simpl in Hcall.
    rewrite (Read_passes_empty_write _ _ _ Hopen Hact) in Hcall by eauto.
    by injection Hcall as <- <-.
Qed.

Lemma C3_witness :
  exists c' r,
    call (OpWrite (bytes "x")) empty_read_then_close = Returns c' r /\
    current empty_read_then_close < current c'.
Proof.
  destruct (C3_cursor_passes_discharged_actions (OpWrite (bytes "x")) empty_read_then_close)
    as (c' & r & Hcall & _ & _ & Hskip & _).
  - reflexivity.
  - intros b o [=].
  - exists c', r. split; [exact Hcall|]. exact (Hskip [] eq_refl).
Defined.

(** C3 as stated fails.  [Close] at a write action without data does not
    skip it: it returns the error and the cursor stays.  [Read] at a read
    action without data whose successor is a close action does not skip it
    either: it returns 0 and the cursor stays. *)
Lemma C3_counterexample :
  (let c := empty_write_last in
   let e := ShouldWriteButClose 1 in
   closed c = false /\
   scenario c !! current c = Some (writeAction [] []) /\
   Conn.Close c = Returns (Conn.addError c e) (Some e) /\
   current (Conn.addError c e) = current c) /\
  (let c := empty_read_then_close in
   let b := replicate 4 Byte.x00 in
   closed c = false /\
   scenario c !! current c = Some (readAction [] []) /\
   Conn.Read c b = Returns c (b, 0, None)).
Proof. repeat split. Qed.

(** * Sending a write action in chunks *)

Lemma Write_chunks_remaining (chunks : list (list byte)) :
  forall (c : Conn) (data o : list byte),
  closed c = false ->
  scenario c !! current c = Some (writeAction data o) ->
  concat chunks = data ->
  forall (k : nat) (chunk : list byte),
  chunks !! k = Some chunk ->
  (forall j, j < k -> concat (take (S j) chunks) <> data) ->
  exists c',
    Write_chunks chunks c !! k = Some (Returns c' (length chunk, None)) /\
    errors c' = errors c /\ t c' = t c /\ closed c' = false /\
    current c' = (if decide (concat (take (S k) chunks) = data)
                  then current c + 1 else current c).
Proof.
  induction chunks as [|ch rest IH]; intros c data o Hopen Hact Hall k chunk Hk Hbefore;
    [done|].
  simpl in Hall.
  assert (ch = take (length ch) data) as Hpre by (by rewrite <- Hall, take_app_length).
  assert (length ch <= length data) as Hle by (rewrite <- Hall, length_app; lia).
  pose proof (Write_on_write c ch data o Hopen Hact) as HW.
  rewrite bool_decide_eq_true_2 in HW by done.
  assert (length ch = length data <-> ch = data) as Hdone.
  { split; [|by intros ->]. intros He. by rewrite Hpre, He, firstn_all. }
  destruct k as [|k]; simpl in Hk.
  - injection Hk as ->. simpl. rewrite app_nil_r.
    destruct (decide (chunk = data)) as [He|Hne].
    + rewrite bool_decide_eq_true_2 in HW by (by apply Hdone).
      rewrite HW. eexists. split; [done|]. done.
    + rewrite bool_decide_eq_false_2 in HW by (by rewrite Hdone).
      rewrite HW. eexists. split; [done|]. done.
  - assert (ch <> data) as Hne.
    { specialize (Hbefore 0 ltac:(lia)). simpl in Hbefore. by rewrite app_nil_r in Hbefore. }
    rewrite bool_decide_eq_false_2 in HW by (by rewrite Hdone).
    simpl. rewrite HW.
    set (c1 := set_action c (current c) (writeAction (drop (length ch) data) o)).
    assert (drop (length ch) data = concat rest) as Hrest
      by (by rewrite <- Hall, drop_app_length).
    destruct (IH c1 (concat rest) o) with (k := k) (chunk := chunk)
      as (c' & Hc' & He & Ht & Hcl & Hcur); try done.
    + subst c1. simpl. rewrite Hrest. apply list_lookup_insert_eq.
      by eapply lookup_lt_Some.
    + intros j Hj Heq. apply (Hbefore (S j)); [lia|].
      rewrite <- Hall. simpl. by rewrite Heq.
    + exists c'. split; [done|]. repeat split; try done.
      rewrite Hcur. simpl. rewrite <- Hall.
      destruct (decide (concat (take (S k) rest) = concat rest)) as [Heq|Heq].
      * rewrite decide_True; [done|]. by rewrite <- Heq.
      * rewrite decide_False; [done|]. intros Happ. by apply app_inv_head in Happ.
Qed.

(** With chunks that are all non-empty no call comes after the one that
    completes the data: the side condition of the lemma above holds at every
    call. *)
Lemma nonempty_chunks_not_done_before (chunks : list (list byte)) (data : list byte) :
  concat chunks = data ->
  Forall (fun ch => ch <> []) chunks ->
  forall k j, k < length chunks -> j < k -> concat (take (S j) chunks) <> data.
Proof.
  intros Hall Hne k j Hk Hj Heq.
  rewrite <- (take_drop (S j) chunks), concat_app in Hall.
  rewrite Heq in Hall.
  assert (concat (drop (S j) chunks) = []) as Hnil.
  { apply (app_inv_head data). by rewrite app_nil_r. }
  destruct (drop (S j) chunks) as [|ch rest] eqn:Ed.
  - apply (f_equal length) in Ed. rewrite length_drop in Ed. simpl in Ed. lia.
  - assert (ch ∈ chunks) as Hin.
    { rewrite <- (take_drop (S j) chunks), Ed. apply elem_of_app. right. apply elem_of_cons. by left. }
    rewrite Forall_forall in Hne. apply (Hne ch Hin).
    simpl in Hnil. by apply app_eq_nil in Hnil as [? _].
Qed.

(** C4. Take an open connection whose action at the cursor is a write action
    as [Write(data)] makes it, and chunks that put end to end are [data].
    Every [Write] of a chunk, up to and including the first one with which
    the bytes written so far are all of [data], returns the length of the
    chunk and no error and appends no error (nor reports one to the test);
    the cursor stays on the action until that call and is one further after
    it.  (A call made after that one is no longer addressed to this
    action.) *)
Theorem C4_Write_in_chunks (c : Conn) (data : list byte) (chunks : list (list byte))
    (Hopen : closed c = false)
    (Hact : scenario c !! current c = Some (Write data))
    (Hall : concat chunks = data)
    (k : nat) (chunk : list byte)
    (Hk : chunks !! k = Some chunk)
    (Hbefore : forall j, j < k -> concat (take (S j) chunks) <> data) :
  exists c',
    Write_chunks chunks c !! k = Some (Returns c' (length chunk, None)) /\
    errors c' = errors c /\ t c' = t c /\
    current c' = (if decide (concat (take (S k) chunks) = data)
                  then current c + 1 else current c).
Proof.
  destruct (Write_chunks_remaining chunks c data data Hopen Hact Hall k chunk Hk Hbefore)
    as (c' & H1 & H2 & H3 & _ & H4).
  eauto.
Qed.

Lemma C4_witness :
  exists c',
    Write_chunks [bytes "hello"; bytes "world"] helloworld_close !! 1 =
      Some (Returns c' (5, None)) /\
    errors c' = [] /\ current c' = 1.
Proof.
  destruct (C4_Write_in_chunks helloworld_close (bytes "helloworld")
              [bytes "hello"; bytes "world"] eq_refl eq_refl eq_refl 1 (bytes "world") eq_refl)
    as (c' & H1 & H2 & _ & H3).
  - intros j Hj. assert (j = 0) as -> by lia. vm_compute. discriminate.
  - exists c'. split; [exact H1|]. split; [exact H2 | exact H3].
Defined.

(** * Draining read actions *)

Lemma Ptr_Read_fuel_enough f f' c b :
  length (Ptr.scenario c) - Ptr.current c < f ->
  length (Ptr.scenario c) - Ptr.current c < f' ->
  Ptr.Read_fuel f c b = Ptr.Read_fuel f' c b /\ Ptr.Read_fuel f c b <> Ptr.OutOfFuel.
Proof.
  revert f' c. induction f as [|f IH]; intros [|f'] c Hf Hf'; try lia.
  simpl. unfold Ptr.Read_body.
  destruct (Ptr.closed c); [done|].
  destruct (Ptr.deref c (Ptr.getAction c (Ptr.current c))) as [data o|data o| |]; try done.
  - destruct (0 <? length data); [done|].
    destruct (Ptr.deref c (Ptr.getAction c (Ptr.current c + 1))) eqn:En; simpl; try done.
    assert (Ptr.current c + 1 < length (Ptr.scenario c)).
    { unfold Ptr.getAction in En.
      destruct (Ptr.scenario c !! (Ptr.current c + 1)) eqn:El; [|done].
      by eapply lookup_lt_Some. }
    apply IH; simpl; lia.
  - destruct (length data =? 0); [|done].
    by destruct (Ptr.scenario (Ptr.incr c) !! Ptr.current (Ptr.incr c)).
Qed.

Lemma Ptr_Read_no_OutOfFuel c b : Ptr.Read c b <> Ptr.OutOfFuel.
Proof.
  unfold Ptr.Read.
  apply (Ptr_Read_fuel_enough _ (S (length (Ptr.scenario c)))); simpl; lia.
Qed.

Lemma Ptr_Read_unfold c b : Ptr.Read c b = Ptr.Read_body Ptr.Read c b.
Proof.
  unfold Ptr.Read at 1. simpl. unfold Ptr.Read_body.
  destruct (Ptr.closed c); [done|].
  destruct (Ptr.deref c (Ptr.getAction c (Ptr.current c))) as [data o|data o| |]; try done.
  destruct (0 <? length data); [done|].
  destruct (Ptr.deref c (Ptr.getAction c (Ptr.current c + 1))) eqn:En; simpl; try done.
  assert (Ptr.current c + 1 < length (Ptr.scenario c)).
  { unfold Ptr.getAction in En.
    destruct (Ptr.scenario c !! (Ptr.current c + 1)) eqn:El; [|done].
    by eapply lookup_lt_Some. }
  unfold Ptr.Read. apply Ptr_Read_fuel_enough; simpl; lia.
Qed.

Lemma pending_at_slot c q data o :
  Ptr.scenario c !! Ptr.current c = Some q ->
  Ptr.objects c !! q = Some (readAction data o) ->
  pending c =
    data ++ stream (<[q := readAction [] o]> (Ptr.objects c))
                   (drop (S (Ptr.current c)) (Ptr.scenario c)).
Proof.
  intros Hq Ho. unfold pending. rewrite (drop_S _ _ _ Hq). simpl.
  unfold data_at. by rewrite Ho.
Qed.

Lemma pending_no_slot c :
  Ptr.scenario c !! Ptr.current c = None -> pending c = [].
Proof.
  intros Hn. unfold pending. by rewrite drop_ge by (by apply lookup_ge_None).
Qed.

Lemma all_reads_assign c q data o :
  Ptr.all_reads c ->
  Ptr.all_reads (Ptr.assign c (Some q) (readAction data o)).
Proof.
  unfold Ptr.all_reads. simpl. intros Hall.
  eapply Forall_impl; [exact Hall|]. simpl. intros q' (d & o' & Hq').
  destruct (decide (q' = q)) as [->|Hne].
  - exists data, o. apply list_lookup_insert_eq. by eapply lookup_lt_Some.
  - exists d, o'. by rewrite list_lookup_insert_ne.
Qed.

(** One [Read] on a scenario of read actions: it hands out a front piece of
    the pending bytes, a non-empty one when there is room and data. *)
Lemma Ptr_Read_fuel_drain f :
  forall c b,
  Ptr.closed c = false -> Ptr.all_reads c ->
  Ptr.Read_fuel f c b = Ptr.OutOfFuel \/
  exists c' n,
    Ptr.Read_fuel f c b = Ptr.Returns c' (take n (pending c) ++ drop n b, n, None) /\
    n <= length (pending c) /\
    (0 < length b -> pending c <> [] -> 0 < n) /\
    pending c' = drop n (pending c) /\
    Ptr.errors c' = Ptr.errors c /\ Ptr.t c' = Ptr.t c /\
    Ptr.scenario c' = Ptr.scenario c /\
    Ptr.closed c' = false /\ Ptr.all_reads c'.
Proof.
  induction f as [|f IH]; intros c b Hopen Hall; simpl; [by left|].
  unfold Ptr.Read_body. rewrite Hopen. cbv zeta.
  destruct (Ptr.scenario c !! Ptr.current c) as [q|] eqn:Eq.
  - assert (Ptr.getAction c (Ptr.current c) = Some q) as -> by exact Eq.
    pose proof Hall as Hall'. unfold Ptr.all_reads in Hall'. rewrite Forall_lookup in Hall'.
    destruct (Hall' _ _ Eq) as (data & o & Ho).
    assert (Ptr.deref c (Some q) = readAction data o) as -> by (simpl; by rewrite Ho).
    pose proof (pending_at_slot c q data o Eq Ho) as Hp.
    pose proof (lookup_lt_Some _ _ _ Ho) as Hq.
    destruct (0 <? length data) eqn:Ed.
    + right. apply Nat.ltb_lt in Ed.
      set (n := length b `min` length data).
      exists (Ptr.assign c (Some q) (readAction (drop n data) o)), n.
      assert (n <= length data) as Hn by (subst n; lia).
      split; [by rewrite Hp, take_app_le|].
      split; [rewrite Hp, length_app; lia|].
      split; [intros Hb _; subst n; lia|].
      split.
      { rewrite Hp, drop_app_le by done.
        rewrite (pending_at_slot _ q (drop n data) o); simpl; [|done|].
        - by rewrite list_insert_insert_eq.
        - by apply list_lookup_insert_eq. }
      repeat split; try done. by apply all_reads_assign.
    + apply empty_data in Ed as ->. simpl in Hp.
      rewrite (list_insert_id _ _ _ Ho) in Hp.
      destruct (Ptr.deref c (Ptr.getAction c (Ptr.current c + 1))) as [data' o'| | |] eqn:En;
        simpl.
      * destruct (IH (Ptr.incr c) b Hopen Hall)
          as [->|(c' & n & HR & H1 & H2 & H3 & H4)]; [by left|].
        right. exists c', n.
        assert (pending (Ptr.incr c) = pending c) as Hpi.
        { unfold pending at 1. simpl. by rewrite Nat.add_1_r, Hp. }
        rewrite Hpi in *. done.
      * unfold Ptr.getAction in En.
        destruct (Ptr.scenario c !! (Ptr.current c + 1)) as [q'|] eqn:El; [|done].
        destruct (Hall' _ _ El) as (d' & o' & Ho'). simpl in En. by rewrite Ho' in En.
      * unfold Ptr.getAction in En.
        destruct (Ptr.scenario c !! (Ptr.current c + 1)) as [q'|] eqn:El; [|done].
        destruct (Hall' _ _ El) as (d' & o' & Ho'). simpl in En. by rewrite Ho' in En.
      * right. exists c, 0.
        assert (pending c = []) as Hnil.
        { rewrite Hp. rewrite drop_ge; [done|].
          unfold Ptr.getAction in En.
          destruct (Ptr.scenario c !! (Ptr.current c + 1)) as [q'|] eqn:El.
          - destruct (Hall' _ _ El) as (d' & o' & Ho'). simpl in En. by rewrite Ho' in En.
          - apply lookup_ge_None in El. lia. }
        rewrite Hnil. simpl. rewrite drop_0. repeat split; try done; lia.
  - assert (Ptr.getAction c (Ptr.current c) = None) as -> by exact Eq. simpl.
    right. exists c, 0. rewrite (pending_no_slot c Eq). simpl. rewrite drop_0.
    repeat split; try done; lia.
Qed.

Lemma Ptr_Read_drain c b :
  Ptr.closed c = false -> Ptr.all_reads c ->
  exists c' n,
    Ptr.Read c b = Ptr.Returns c' (take n (pending c) ++ drop n b, n, None) /\
    n <= length (pending c) /\
    (0 < length b -> pending c <> [] -> 0 < n) /\
    pending c' = drop n (pending c) /\
    Ptr.errors c' = Ptr.errors c /\ Ptr.t c' = Ptr.t c /\
    Ptr.scenario c' = Ptr.scenario c /\
    Ptr.closed c' = false /\ Ptr.all_reads c'.
Proof.
  intros Hopen Hall.
  destruct (Ptr_Read_fuel_drain (S (length (Ptr.scenario c))) c b Hopen Hall) as [HO|H];
    [|done].
  by destruct (Ptr_Read_no_OutOfFuel c b).
Qed.

Lemma Ptr_Read_stream_drain k C :
  0 < C ->
  forall c, Ptr.closed c = false -> Ptr.all_reads c ->
  exists out c',
    Ptr.Read_stream k C c = Some (out, c') /\
    out ++ pending c' = pending c /\
    length (pending c') <= length (pending c) - k /\
    Ptr.errors c' = Ptr.errors c /\ Ptr.t c' = Ptr.t c /\
    Ptr.closed c' = false /\ Ptr.all_reads c'.
Proof.
  intros HC. induction k as [|k IH]; intros c Hopen Hall; simpl.
  - exists [], c. repeat split; try done. lia.
  - destruct (Ptr_Read_drain c (replicate C Byte.x00) Hopen Hall)
      as (c1 & n & -> & Hn & Hpos & Hp1 & He1 & Ht1 & _ & Hcl1 & Hall1).
    destruct (IH c1 Hcl1 Hall1) as (out & c' & -> & Hout & Hlen & He & Ht & Hcl & Hall').
    exists (take n (take n (pending c) ++ drop n (replicate C Byte.x00)) ++ out), c'.
    assert (take n (take n (pending c) ++ drop n (replicate C Byte.x00)) = take n (pending c))
      as ->.
    { rewrite take_app_le by (rewrite length_take; lia).
      rewrite take_take. f_equal. lia. }
    repeat split; try done; try congruence.
    + rewrite <- app_assoc, Hout, Hp1. apply take_drop.
    + rewrite Hp1, length_drop in Hlen.
      destruct (pending c) as [|x p] eqn:Ep; [simpl in *; lia|].
      assert (0 < n) by (apply Hpos; [by rewrite length_replicate | done]).
      simpl in *. lia.
Qed.

(** Slots that hold distinct structs deliver what they declare. *)
Lemma stream_distinct (slots : list nat) :
  forall objects, NoDup slots -> stream objects slots = concat (data_at objects <$> slots).
Proof.
  induction slots as [|q rest IH]; intros objects Hnd; [done|].
  apply NoDup_cons in Hnd as [Hq Hnd]. simpl. f_equal.
  rewrite IH by done. f_equal. apply list_fmap_ext. intros i q' Hq'.
  assert (q' <> q) as Hne.
  { intros ->. apply Hq. by eapply list_elem_of_lookup_2. }
  destruct (objects !! q) as [a|]; [|done].
  unfold data_at. by rewrite list_lookup_insert_ne.
Qed.

(** ** The two embeddings agree on distinct structs *)

Lemma view_getAction c i :
  Conn.getAction (view c) i = Ptr.deref c (Ptr.getAction c i).
Proof.
  unfold Conn.getAction, view, Ptr.getAction. simpl. rewrite list_lookup_fmap.
  by destruct (Ptr.scenario c !! i).
Qed.

(** Assigning through the pointer of the slot under the cursor changes that
    slot of the scenario of values and no other, when no other slot holds
    the pointer. *)
Lemma view_assign c q a :
  Ptr.distinct c ->
  Ptr.scenario c !! Ptr.current c = Some q ->
  view (Ptr.assign c (Some q) a) = set_action (view c) (Ptr.current c) a.
Proof.
  intros [Hnd Hval] Hq.
  assert (q < length (Ptr.objects c)) as Hlt
    by (rewrite Forall_lookup in Hval; by apply (Hval _ _ Hq)).
  unfold view, set_action, set_scenario. simpl. f_equal.
  apply list_eq. intros j. rewrite list_lookup_fmap.
  destruct (decide (j = Ptr.current c)) as [->|Hne].
  - rewrite Hq.
    rewrite list_lookup_insert_eq
      by (eapply lookup_lt_Some; rewrite list_lookup_fmap, Hq; reflexivity).
    simpl. by rewrite list_lookup_insert_eq.
  - rewrite list_lookup_insert_ne by done. rewrite list_lookup_fmap.
    destruct (Ptr.scenario c !! j) as [q'|] eqn:Ej; [|done]. simpl. f_equal.
    rewrite list_lookup_insert_ne; [done|].
    intros ->. apply Hne. by eapply NoDup_lookup.
Qed.

Lemma distinct_incr c : Ptr.distinct c -> Ptr.distinct (Ptr.incr c).
Proof. done. Qed.

Lemma distinct_addError c e : Ptr.distinct c -> Ptr.distinct (Ptr.addError c e).
Proof. done. Qed.

Lemma distinct_close c : Ptr.distinct c -> Ptr.distinct (Ptr.close c).
Proof. done. Qed.

Lemma distinct_assign c p a : Ptr.distinct c -> Ptr.distinct (Ptr.assign c p a).
Proof.
  intros [Hnd Hval]. destruct p as [q|]; [|done].
  split; [done|]. simpl. by rewrite length_insert.
Qed.

#[local] Hint Resolve distinct_incr distinct_addError distinct_close distinct_assign : core.

Lemma Ptr_Read_fuel_distinct f :
  forall c b c' r,
  Ptr.Read_fuel f c b = Ptr.Returns c' r -> Ptr.distinct c -> Ptr.distinct c'.
Proof.
  induction f as [|f IH]; intros c b c' r; simpl; [done|].
  unfold Ptr.Read_body. cbv zeta. intros H Hd.
  repeat case_match; simplify_eq; eauto.
Qed.

Lemma Ptr_Write_fuel_distinct f :
  forall c b c' r,
  Ptr.Write_fuel f c b = Ptr.Returns c' r -> Ptr.distinct c -> Ptr.distinct c'.
Proof.
  induction f as [|f IH]; intros c b c' r; simpl; [done|].
  unfold Ptr.Write_body. cbv zeta. intros H Hd.
  repeat case_match; simplify_eq; eauto.
Qed.

Lemma Ptr_Close_fuel_distinct f :
  forall c c' r,
  Ptr.Close_fuel f c = Ptr.Returns c' r -> Ptr.distinct c -> Ptr.distinct c'.
Proof.
  induction f as [|f IH]; intros c c' r; simpl; [done|].
  unfold Ptr.Close_body. intros H Hd.
  repeat case_match; simplify_eq; eauto.
Qed.

(** The calls keep the slots' structs distinct. *)
Lemma Ptr_call_distinct op c c' r :
  Ptr.call op c = Ptr.Returns c' r -> Ptr.distinct c -> Ptr.distinct c'.
Proof.
  destruct op as [b|b|]; simpl.
  - destruct (Ptr.Read c b) as [c1 [[? ?] ?]| |] eqn:E; intros [= <- <-]; try done.
    eapply Ptr_Read_fuel_distinct, E.
  - destruct (Ptr.Write c b) as [c1 [? ?]| |] eqn:E; intros [= <- <-]; try done.
    eapply Ptr_Write_fuel_distinct, E.
  - apply Ptr_Close_fuel_distinct.
Qed.

Lemma Read_fuel_view f :
  forall c b, Ptr.distinct c ->
  view_outcome (Ptr.Read_fuel f c b) = Conn.Read_fuel f (view c) b.
Proof.
  induction f as [|f IH]; intros c b Hd; simpl; [done|].
  unfold Ptr.Read_body, Conn.Read_body. cbv zeta.
  change (closed (view c)) with (Ptr.closed c).
  change (current (view c)) with (Ptr.current c).
  destruct (Ptr.closed c); [done|].
  rewrite !view_getAction.
  destruct (Ptr.deref c (Ptr.getAction c (Ptr.current c))) as [data o|data o| |] eqn:Ea;
    try done.
  - destruct (0 <? length data).
    + simpl. f_equal.
      unfold Ptr.getAction in *.
      destruct (Ptr.scenario c !! Ptr.current c) as [q|] eqn:Eq; [|done].
      by apply view_assign.
    + destruct (Ptr.deref c (Ptr.getAction c (Ptr.current c + 1))); simpl; try done.
      by apply IH.
  - destruct (length data =? 0); [|done]. simpl.
    rewrite list_lookup_fmap.
    by destruct (Ptr.scenario c !! (Ptr.current c + 1)).
Qed.

Lemma Write_fuel_view f :
  forall c b, Ptr.distinct c ->
  view_outcome (Ptr.Write_fuel f c b) = Conn.Write_fuel f (view c) b.
Proof.
  induction f as [|f IH]; intros c b Hd; simpl; [done|].
  unfold Ptr.Write_body, Conn.Write_body. cbv zeta.
  change (closed (view c)) with (Ptr.closed c).
  change (current (view c)) with (Ptr.current c).
  destruct (Ptr.closed c); [done|].
  rewrite !view_getAction.
  destruct (Ptr.deref c (Ptr.getAction c (Ptr.current c))) as [data o|data o| |] eqn:Ea;
    try done.
  - destruct (0 <? length data); [done|]. by apply IH.
  - destruct (length b <=? length data); [|done].
    destruct (same b data) as [[|]|]; try done.
    destruct (length b =? length data); [done|].
    simpl. f_equal.
    unfold Ptr.getAction in *.
    destruct (Ptr.scenario c !! Ptr.current c) as [q|] eqn:Eq; [|done].
    by apply view_assign.
Qed.

Lemma Close_fuel_view f :
  forall c, view_outcome (Ptr.Close_fuel f c) = Conn.Close_fuel f (view c).
Proof.
  induction f as [|f IH]; intros c; simpl; [done|].
  unfold Ptr.Close_body, Conn.Close_body.
  change (closed (view c)) with (Ptr.closed c).
  change (current (view c)) with (Ptr.current c).
  destruct (Ptr.closed c); [done|].
  rewrite !view_getAction.
  destruct (Ptr.deref c (Ptr.getAction c (Ptr.current c))) as [data o|data o| |] eqn:Ea;
    try done.
  destruct (0 <? length data); [done|]. by apply IH.
Qed.

Lemma length_view c : length (scenario (view c)) = length (Ptr.scenario c).
Proof. simpl. by rewrite length_fmap. Qed.

(** On a scenario whose slots hold distinct structs, a call on the slice of
    pointers is the call on the scenario of values it stands for. *)
Lemma call_view op c :
  Ptr.distinct c -> view_outcome (Ptr.call op c) = call op (view c).
Proof.
  intros Hd. destruct op as [b|b|]; unfold call, Ptr.call.
  - unfold Conn.Read, Ptr.Read. rewrite length_view.
    rewrite <- (Read_fuel_view _ c b Hd).
    by destruct (Ptr.Read_fuel _ c b) as [c1 [[? ?] ?]| |].
  - unfold Conn.Write, Ptr.Write. rewrite length_view.
    rewrite <- (Write_fuel_view _ c b Hd).
    by destruct (Ptr.Write_fuel _ c b) as [c1 [? ?]| |].
  - unfold Conn.Close, Ptr.Close. rewrite length_view. apply Close_fuel_view.
Qed.

(** And so is a run of calls. *)
Lemma run_view ops :
  forall c, Ptr.distinct c -> view <$> Ptr.run ops c = run ops (view c).
Proof.
  induction ops as [|op ops IH]; intros c Hd; simpl; [done|].
  rewrite <- (call_view op c Hd).
  destruct (Ptr.call op c) as [c1 r| |] eqn:E; simpl; try done.
  apply IH. by eapply Ptr_call_distinct.
Qed.

Lemma view_incr c : view (Ptr.incr c) = incr (view c).
Proof. done. Qed.

Lemma view_addError c e : view (Ptr.addError c e) = Conn.addError (view c) e.
Proof. done. Qed.

(** [Verify] assigns to no struct: the two embeddings of it agree on every
    scenario. *)
Lemma Verify_view c :
  (view (Ptr.Verify c).1, (Ptr.Verify c).2) = Conn.Verify (view c).
Proof.
  unfold Ptr.Verify, Conn.Verify. cbv zeta.
  rewrite view_getAction. change (current (view c)) with (Ptr.current c).
  destruct (Ptr.deref c (Ptr.getAction c (Ptr.current c))) as [data o|data o| |];
    [destruct (0 <? length data)|..];
    rewrite <- ?view_addError, <- ?view_incr, ?length_view;
    match goal with
    | |- context [current (view ?x)] => change (current (view x)) with (Ptr.current x)
    end;
    destruct (_ <? _); reflexivity.
Qed.

(** C9. On an open connection, with the scenario as the slice of pointers
    it is: at a read action without data, [Read] looks at the next action;
    when that is a read action too the call is the call on the connection
    with the cursor moved on, and otherwise (another kind of action, or
    none) it returns 0 and no error and changes nothing; with the cursor
    past the end it returns 0 and no error as well.  On a scenario of read
    actions only, [k] calls of [Read] with buffers of [C > 0] bytes all
    succeed, append no error, and deliver a front piece of the pending
    bytes: the data of the structs slot by slot in the order of the
    scenario, each struct's data at the first slot that holds it; once [k]
    reaches the number of those bytes they are all delivered, and a further
    [Read] returns 0 and no error.  When the slots from the cursor on hold
    distinct structs, the pending bytes are the bytes these slots declare,
    one slot after the other. *)
Theorem C9_adjacent_reads (c : Ptr.Conn) (b : list byte)
    (Hopen : Ptr.closed c = false) :
  (forall q o,
     Ptr.scenario c !! Ptr.current c = Some q ->
     Ptr.objects c !! q = Some (readAction [] o) ->
     Ptr.Read c b =
       if is_read (Ptr.deref c (Ptr.getAction c (Ptr.current c + 1)))
       then Ptr.Read (Ptr.incr c) b
       else Ptr.Returns c (b, 0, None)) /\
  (length (Ptr.scenario c) <= Ptr.current c -> Ptr.Read c b = Ptr.Returns c (b, 0, None)) /\
  (Ptr.all_reads c -> forall C k, 0 < C ->
     exists out c',
       Ptr.Read_stream k C c = Some (out, c') /\
       out `prefix_of` pending c /\
       Ptr.errors c' = Ptr.errors c /\ Ptr.t c' = Ptr.t c /\
       (length (pending c) <= k ->
          out = pending c /\
          exists c'', Ptr.Read c' b = Ptr.Returns c'' (b, 0, None) /\
                      Ptr.errors c'' = Ptr.errors c /\ Ptr.t c'' = Ptr.t c)) /\
  (NoDup (drop (Ptr.current c) (Ptr.scenario c)) -> pending c = declared c).
Proof.
  split; [|split; [|split]].
  - intros q o Hq Ho. rewrite Ptr_Read_unfold at 1. unfold Ptr.Read_body. rewrite Hopen.
    cbv zeta. assert (Ptr.getAction c (Ptr.current c) = Some q) as -> by exact Hq.
    assert (Ptr.deref c (Some q) = readAction [] o) as -> by (simpl; by rewrite Ho).
    simpl. by destruct (Ptr.deref c (Ptr.getAction c (Ptr.current c + 1))).
  - intros Hge. rewrite Ptr_Read_unfold. unfold Ptr.Read_body. rewrite Hopen. cbv zeta.
    assert (Ptr.getAction c (Ptr.current c) = None) as ->; [|done].
    by apply lookup_ge_None.
  - intros Hall C k HC.
    destruct (Ptr_Read_stream_drain k C HC c Hopen Hall)
      as (out & c' & HS & Hout & Hlen & He & Ht & Hcl & Hall').
    exists out, c'. split; [done|]. split; [by exists (pending c')|].
    split; [done|]. split; [done|].
    intros Hk.
    assert (pending c' = []) as Hnil by (apply nil_length_inv; lia).
    split; [by rewrite <- Hout, Hnil, app_nil_r|].
    destruct (Ptr_Read_drain c' b Hcl Hall')
      as (c'' & n & HR & Hn & _ & _ & He' & Ht' & _).
    rewrite Hnil in HR, Hn. simpl in Hn. assert (n = 0) as -> by lia.
    simpl in HR. rewrite drop_0 in HR.
    exists c''. split; [done|]. split; congruence.
  - intros Hnd. unfold pending, declared. by apply stream_distinct.
Qed.

Lemma C9_witness :
  exists c',
    Ptr.Read_stream 6 4 sun_mon = Some (bytes "sunmon", c') /\ Ptr.errors c' = [].
Proof.
  destruct (C9_adjacent_reads sun_mon [] eq_refl) as (_ & _ & Hdrain & Hdecl).
  destruct (Hdrain ltac:(repeat constructor; eexists _, _; reflexivity) 4 6 ltac:(lia))
    as (out & c' & HS & _ & He & _ & Hall).
  destruct (Hall ltac:(vm_compute; lia)) as [-> _].
  exists c'. split; [exact HS | exact He].
Defined.

(** C9 as stated fails for a struct listed twice, as
    [a := Read("ab"); c.SetExpectedActions(a, a)] installs it.  The scenario
    consists of two adjacent read actions that declare ["ab"] each; the
    first [Read] delivers ["ab"], which drains the struct behind both slots,
    and the second moves the cursor on and returns 0: ["abab"] is never
    delivered, whatever the number of calls and the size of the buffers. *)
Lemma C9_counterexample :
  Ptr.closed ab_twice = false /\ Ptr.all_reads ab_twice /\
  declared ab_twice = bytes "abab" /\
  (exists c',
     Ptr.Read_stream 2 4 ab_twice = Some (bytes "ab", c') /\
     Ptr.current c' = 1 /\ Ptr.errors c' = [] /\
     Ptr.Read c' (replicate 4 Byte.x00) = Ptr.Returns c' (replicate 4 Byte.x00, 0, None)) /\
  (forall k C out c', 0 < C ->
     Ptr.Read_stream k C ab_twice = Some (out, c') -> length out <= 2).
Proof.
  assert (Ptr.all_reads ab_twice) as Hall
    by (repeat constructor; eexists _, _; reflexivity).
  split; [done|]. split; [done|]. split; [done|]. split.
  - eexists. repeat split.
  - intros k C out c' HC HS.
    destruct (Ptr_Read_stream_drain k C HC ab_twice eq_refl Hall)
      as (out' & c1 & HS' & Hout & _).
    rewrite HS in HS'. injection HS' as <- <-.
    apply (f_equal length) in Hout. rewrite length_app in Hout.
    change (length (pending ab_twice)) with 2 in Hout. lia.
Qed.

(** * What every call keeps *)

Lemma evolves_refl a : evolves a a.
Proof. by repeat split. Qed.

Lemma Forall2_evolves_refl (l : list Action) : Forall2 evolves l l.
Proof. induction l; constructor; auto using evolves_refl. Qed.

Lemma Forall2_evolves_insert (l : list Action) i a a' :
  l !! i = Some a -> evolves a a' -> Forall2 evolves l (<[i:=a']> l).
Proof.
  intros Hi He. rewrite <- (list_insert_id l i a Hi) at 1.
  apply Forall2_insert; [apply Forall2_evolves_refl | done].
Qed.

Lemma fmap_app_nil (o : option (list error)) : (fun log => log ++ []) <$> o = o.
Proof. destruct o; simpl; [by rewrite app_nil_r | done]. Qed.

Lemma frame_refl c : frame c c [].
Proof.
  repeat split; try done.
  - by rewrite app_nil_r.
  - by rewrite fmap_app_nil.
  - apply Forall2_evolves_refl.
Qed.

Lemma frame_addError c e : frame c (Conn.addError c e) [e].
Proof. repeat split; try done. apply Forall2_evolves_refl. Qed.

Lemma frame_incr_here c :
  current c < length (scenario c) -> frame c (incr c) [].
Proof.
  intros Hlt. repeat split; try done.
  - by rewrite app_nil_r.
  - by rewrite fmap_app_nil.
  - apply Forall2_evolves_refl.
  - simpl. lia.
Qed.

Lemma frame_after_incr c c' new :
  current c < length (scenario c) -> frame (incr c) c' new -> frame c c' new.
Proof.
  intros Hlt (H1 & H2 & H3 & H4 & H5 & H6). repeat split; try done.
  intros _. apply H6. simpl. lia.
Qed.

Lemma frame_set_action c a a' :
  scenario c !! current c = Some a -> evolves a a' ->
  frame c (set_action c (current c) a') [].
Proof.
  intros Ha He. repeat split; try done.
  - by rewrite app_nil_r.
  - by rewrite fmap_app_nil.
  - by eapply Forall2_evolves_insert.
  - simpl. by rewrite length_insert.
Qed.

Lemma Read_fuel_frame f c b c' b' n e :
  Conn.Read_fuel f c b = Returns c' (b', n, e) ->
  frame c c' (recorded e) /\ closed c' = closed c /\
  (e = Some AlreadyClosed -> closed c = true) /\
  length b' = length b /\ n <= length b /\ drop n b' = drop n b /\
  (e <> None -> n = 0 /\ b' = b).
Proof.
  revert c. induction f as [|f IH]; intros c; simpl; [done|].
  unfold Conn.Read_body.
  destruct (closed c) eqn:Hc.
  { intros [= <- <- <- <-]. split; [apply frame_refl|]. repeat split; try done. lia. }
  destruct (Conn.getAction c (current c)) as [data o|data o| |] eqn:Ea.
  - apply getAction_is_lookup in Ea; [|done].
    destruct (0 <? length data) eqn:Ed.
    + intros [= <- <- <- <-]. split.
      * apply (frame_set_action c _ _ Ea). repeat split; try done.
        simpl. apply suffix_drop.
      * repeat split; try done; try lia.
        -- rewrite length_app, length_take, length_drop. lia.
        -- rewrite drop_app_length'; [done|]. rewrite length_take. lia.
    + destruct (Conn.getAction c (current c + 1)) as [data' o'| | |] eqn:En; simpl;
        try (intros [= <- <- <- <-]; split; [apply frame_refl|];
             repeat split; try done; lia).
      intros Hr. destruct (IH _ Hr) as (HF & Hcl & Hac & Hb).
      split; [|split; [rewrite Hcl; exact Hc|split; [intros He; specialize (Hac He); simpl in Hac; congruence|exact Hb]]].
      apply frame_after_incr; [|done]. by eapply lookup_lt_Some.
  - apply getAction_is_lookup in Ea; [|done].
    destruct (length data =? 0).
    + simpl. destruct (scenario c !! (current c + 1)) eqn:El; [|done].
      intros [= <- <- <- <-]. split.
      * apply frame_incr_here. by eapply lookup_lt_Some.
      * repeat split; try done. lia.
    + intros [= <- <- <- <-]. split; [apply frame_addError|].
      repeat split; try done. lia.
  - intros [= <- <- <- <-]. split; [apply frame_addError|].
    repeat split; try done. lia.
  - intros [= <- <- <- <-]. split; [apply frame_refl|]. repeat split; try done. lia.
Qed.

Lemma Write_fuel_frame f c b c' n e :
  Conn.Write_fuel f c b = Returns c' (n, e) ->
  frame c c' (recorded e) /\ closed c' = closed c /\
  (e = Some AlreadyClosed -> closed c = true) /\
  (match e with
   | Some _ => n = 0
   | None => n = length b \/ (n = 0 /\ Conn.getAction c' (current c') = nullAction)
   end).
Proof.
  revert c. induction f as [|f IH]; intros c; simpl; [done|].
  unfold Conn.Write_body.
  destruct (closed c) eqn:Hc.
  { intros [= <- <- <-]. split; [apply frame_refl|]. done. }
  destruct (Conn.getAction c (current c)) as [data o|data o| |] eqn:Ea.
  - apply getAction_is_lookup in Ea; [|done].
    destruct (0 <? length data) eqn:Ed.
    + intros [= <- <- <-]. split; [apply frame_addError|]. done.
    + intros Hr. destruct (IH _ Hr) as (HF & Hcl & Hac & Hn).
      split; [|split; [rewrite Hcl; exact Hc|split; [intros He; specialize (Hac He); simpl in Hac; congruence|exact Hn]]].
      apply frame_after_incr; [|done]. by eapply lookup_lt_Some.
  - apply getAction_is_lookup in Ea; [|done].
    destruct (Nat.leb_spec (length b) (length data)) as [Hle|Hgt];
      [|intros [= <- <- <-]; split; [apply frame_addError|done]].
    rewrite same_prefix by done.
    destruct (decide (b = take (length b) data)) as [Hp|Hp].
    + rewrite bool_decide_eq_true_2 by done.
      destruct (Nat.eqb_spec (length b) (length data)) as [He|He].
      * intros [= <- <- <-]. split; [|split; [done|split; [done|by left]]].
        apply frame_incr_here. by eapply lookup_lt_Some.
      * intros [= <- <- <-]. split; [|split; [done|split; [done|by left]]].
        apply (frame_set_action c _ _ Ea). repeat split; try done.
        simpl. apply suffix_drop.
    + rewrite bool_decide_eq_false_2 by done.
      intros [= <- <- <-]. split; [apply frame_addError|done].
  - intros [= <- <- <-]. split; [apply frame_addError|]. done.
  - intros [= <- <- <-]. split; [apply frame_refl|].
    split; [done|split; [done|by right]].
Qed.

Lemma Close_fuel_frame f c c' e :
  Conn.Close_fuel f c = Returns c' e ->
  frame c c' (recorded e) /\
  (e = Some AlreadyClosed -> closed c = true) /\
  (closed c' = true <-> closed c = true \/ e = None).
Proof.
  revert c. induction f as [|f IH]; intros c; simpl; [done|].
  unfold Conn.Close_body.
  destruct (closed c) eqn:Hc.
  { intros [= <- <-]. split; [apply frame_refl|]. split; [done|]. rewrite Hc. tauto. }
  destruct (Conn.getAction c (current c)) as [data o|data o| |] eqn:Ea.
  - apply getAction_is_lookup in Ea; [|done].
    destruct (0 <? length data) eqn:Ed.
    + intros [= <- <-]. split; [apply frame_addError|]. split; [done|].
      simpl. rewrite Hc. split; [done|]. by intros [?|?].
    + intros Hr. destruct (IH _ Hr) as (HF & Hac & Hcl).
      split; [|split; [intros He; specialize (Hac He); simpl in Hac; congruence|]].
      2: { rewrite Hcl. simpl. rewrite Hc. tauto. }
      apply frame_after_incr; [|done]. by eapply lookup_lt_Some.
  - intros [= <- <-]. split; [apply frame_addError|]. split; [done|].
    simpl. rewrite Hc. split; [done|]. by intros [?|?].
  - apply getAction_is_lookup in Ea; [|done].
    intros [= <- <-]. split; [|split; [done|simpl; tauto]].
    repeat split; try done.
    + by rewrite app_nil_r.
    + by rewrite fmap_app_nil.
    + apply Forall2_evolves_refl.
    + simpl. intros _. apply lookup_lt_Some in Ea. lia.
  - intros [= <- <-]. split; [|split; [done|simpl; tauto]].
    repeat split; try done.
    + by rewrite app_nil_r.
    + by rewrite fmap_app_nil.
    + apply Forall2_evolves_refl.
Qed.

Lemma call_frame op c c' r :
  call op c = Returns c' r ->
  frame c c' (recorded r) /\
  (r = Some AlreadyClosed -> closed c = true) /\
  (closed c' = true <-> closed c = true \/ (op = OpClose /\ r = None)).
Proof.
  destruct op as [b|b|]; simpl.
  - destruct (Conn.Read c b) as [c1 [[b' n] e]| |] eqn:E; try done.
    intros [= <- <-]. apply Read_fuel_frame in E as (HF & Hcl & Hac & _).
    split; [done|]. split; [done|]. rewrite Hcl. split; [tauto|]. by intros [?|[? _]].
  - destruct (Conn.Write c b) as [c1 [n e]| |] eqn:E; try done.
    intros [= <- <-]. apply Write_fuel_frame in E as (HF & Hcl & Hac & _).
    split; [done|]. split; [done|]. rewrite Hcl. split; [tauto|]. by intros [?|[? _]].
  - intros E. apply Close_fuel_frame in E as (HF & Hac & Hcl).
    split; [done|]. split; [done|]. rewrite Hcl. tauto.
Qed.

Lemma call_closed op c :
  closed c = true -> call op c = Returns c (Some AlreadyClosed).
Proof.
  intros Hc. destruct op; simpl.
  - rewrite Read_unfold. unfold Conn.Read_body. by rewrite Hc.
  - rewrite Write_unfold. unfold Conn.Write_body. by rewrite Hc.
  - rewrite Close_unfold. unfold Conn.Close_body. by rewrite Hc.
Qed.

(** The error list is an exact record of the errors returned.  A [Read],
    [Write] or [Close] that returns appends to [c.errors] the error it
    returns and nothing else, and reports the same to the attached test; the
    one error it returns without recording is the already-closed error,
    which it returns exactly when the connection is closed. *)
Theorem call_records_the_error_it_returns (op : Op) (c c' : Conn) (r : option error)
    (Hcall : call op c = Returns c' r) :
  errors c' = errors c ++ recorded r /\
  t c' = (fun log => log ++ recorded r) <$> t c /\
  (r = Some AlreadyClosed <-> closed c = true).
Proof.
  destruct (call_frame _ _ _ _ Hcall) as ((_ & _ & He & Ht & _) & Hac & _).
  split; [done|]. split; [done|]. split; [done|].
  intros Hc. rewrite (call_closed op c Hc) in Hcall. by injection Hcall as _ <-.
Qed.

Lemma call_records_the_error_it_returns_witness :
  let c := SetExpectedActions (New (Some [])) [Close] in
  let c' := Conn.addError c (ShouldCloseButWrite 1) in
  errors c' = [ShouldCloseButWrite 1] /\ t c' = Some [ShouldCloseButWrite 1].
Proof.
  intros c c'.
  destruct (call_records_the_error_it_returns (OpWrite (bytes "x")) c c'
              (Some (ShouldCloseButWrite 1)) eq_refl) as (He & Ht & _).
  split; [exact He | exact Ht].
Defined.

(** The latch [closed] is set by a [Close] that returns nil and by nothing
    else, and no call clears it. *)
Theorem closed_exactly_by_successful_Close (op : Op) (c c' : Conn) (r : option error)
    (Hcall : call op c = Returns c' r) :
  closed c' = true <-> closed c = true \/ (op = OpClose /\ r = None).
Proof. by destruct (call_frame _ _ _ _ Hcall) as (_ & _ & Hcl). Qed.

Lemma closed_exactly_by_successful_Close_witness :
  let c := set_current hello_world_close 1 in
  closed (set_closed (incr c) true) = true <->
  closed c = true \/ (OpClose = OpClose /\ @None error = None).
Proof.
  intros c.
  exact (closed_exactly_by_successful_Close OpClose c (set_closed (incr c) true) None eq_refl).
Defined.

Lemma evolves_trans a1 a2 a3 : evolves a1 a2 -> evolves a2 a3 -> evolves a1 a3.
Proof.
  intros (H1 & H2 & H3) (H4 & H5 & H6). repeat split; try congruence.
  by etrans.
Qed.

Lemma Forall2_evolves_trans (l1 l2 l3 : list Action) :
  Forall2 evolves l1 l2 -> Forall2 evolves l2 l3 -> Forall2 evolves l1 l3.
Proof.
  intros H12. revert l3. induction H12 as [|a1 a2 l1 l2 Ha H12 IH]; intros l3 H23.
  - by inversion H23.
  - inversion H23 as [|? a3 ? l3' Ha' H23']; subst.
    constructor; [by eapply evolves_trans | by apply IH].
Qed.

Lemma well_formed_evolves (l l' : list Action) :
  Forall2 evolves l l' ->
  Forall (fun a => a <> nullAction /\ data_of a `suffix_of` original_of a) l ->
  Forall (fun a => a <> nullAction /\ data_of a `suffix_of` original_of a) l'.
Proof.
  induction 1 as [|a a' l l' (Hty & Ho & Hd) _ IH]; intros Hwf; [done|].
  inversion Hwf as [|? ? [Hnn Hs] Hwf']; subst.
  constructor; [|by apply IH]. split.
  - intros ->. by destruct a.
  - rewrite Ho. by etrans.
Qed.

Lemma run_frame ops :
  forall c c', run ops c = Some c' ->
  Forall2 evolves (scenario c) (scenario c') /\
  localAddr c' = localAddr c /\ remoteAddr c' = remoteAddr c /\
  errors c `prefix_of` errors c' /\
  (closed c = true -> closed c' = true) /\
  (current c <= length (scenario c) -> current c' <= length (scenario c')).
Proof.
  induction ops as [|op ops IH]; intros c c'; simpl.
  - intros [= <-]. repeat split; try done. apply Forall2_evolves_refl.
  - destruct (call op c) as [c1 r| |] eqn:E; try done.
    intros Hrun. destruct (IH _ _ Hrun) as (H1 & H2 & H3 & H4 & H5 & H6).
    destruct (call_frame _ _ _ _ E) as ((F1 & F2 & F3 & _ & F5 & F6) & _ & Hcl).
    repeat split.
    + by eapply Forall2_evolves_trans.
    + congruence.
    + congruence.
    + etrans; [|exact H4]. rewrite F3. by apply prefix_app_r.
    + intros Hc. apply H5, Hcl. by left.
    + intros Hle. by apply H6, F6.
Qed.

(** Whatever calls a test makes, each action of the scenario stays the kind
    of action it was, with the original bytes it was given; its data only
    ever loses bytes from the front.  So a scenario whose actions hold an
    end piece of their original bytes (as every action does when it is
    made) stays such a scenario. *)
Theorem run_keeps_actions (ops : list Op) (c c' : Conn)
    (Hrun : run ops c = Some c') :
  length (scenario c') = length (scenario c) /\
  (forall i a, scenario c !! i = Some a ->
     exists a', scenario c' !! i = Some a' /\ Type_ a' = Type_ a /\
                original_of a' = original_of a /\ data_of a' `suffix_of` data_of a) /\
  (well_formed c -> well_formed c').
Proof.
  destruct (run_frame ops c c' Hrun) as (HF & _).
  split; [symmetry; by eapply Forall2_length|]. split.
  - intros i a Hi.
    destruct (Forall2_lookup_l _ _ _ _ _ HF Hi) as (a' & Hi' & He). by exists a'.
  - by apply well_formed_evolves.
Qed.

Lemma run_keeps_actions_witness :
  exists c', run [OpRead (replicate 5 Byte.x00); OpClose] hello_world_close = Some c' /\
             length (scenario c') = 2.
Proof.
  eexists. split; [reflexivity|].
  exact (proj1 (run_keeps_actions [OpRead (replicate 5 Byte.x00); OpClose]
                  hello_world_close _ eq_refl)).
Defined.

(** The cursor stays within the scenario: when it is at most the length of
    the scenario, it is so after any calls that return, and after a [Verify]
    on top of them. *)
Theorem cursor_stays_within_scenario (ops : list Op) (c c' : Conn)
    (Hin : current c <= length (scenario c))
    (Hrun : run ops c = Some c') :
  current c' <= length (scenario c') /\
  current (fst (Conn.Verify c')) <= length (scenario (fst (Conn.Verify c'))).
Proof.
  destruct (run_frame ops c c' Hrun) as (_ & _ & _ & _ & _ & Hcur).
  specialize (Hcur Hin). split; [done|].
  destruct (Verify_result c') as (_ & _ & -> & ->).
  unfold cursor_after_leftover, Conn.getAction.
  destruct (scenario c' !! current c') as [a|] eqn:Ea; [|done].
  apply lookup_lt_Some in Ea. destruct a; lia.
Qed.

Lemma cursor_stays_within_scenario_witness :
  exists c', run [OpWrite (bytes "hello!!"); OpClose] hello_close = Some c' /\
             current c' <= 2.
Proof.
  eexists. split; [reflexivity|].
  exact (proj1 (cursor_stays_within_scenario [OpWrite (bytes "hello!!"); OpClose]
                  hello_close _ ltac:(vm_compute; lia) eq_refl)).
Defined.

(** [Read] keeps to the buffer it is given: the buffer keeps its length, the
    count returned is at most that length, the bytes from that count on are
    as they were, and a call that returns an error returns 0 and leaves the
    whole buffer as it was. *)
Theorem Read_keeps_to_its_buffer (c c' : Conn) (b b' : list byte) (n : nat)
    (e : option error)
    (Hread : Conn.Read c b = Returns c' (b', n, e)) :
  length b' = length b /\ n <= length b /\ drop n b' = drop n b /\
  (e <> None -> n = 0 /\ b' = b).
Proof. by destruct (Read_fuel_frame _ _ _ _ _ _ _ Hread) as (_ & _ & _ & H). Qed.

Lemma Read_keeps_to_its_buffer_witness :
  let c := hello_world_close in
  let b := replicate 5 Byte.x00 in
  length (bytes "hello") = length b /\ 5 <= length b.
Proof.
  intros c b.
  destruct (Read_keeps_to_its_buffer c
              (set_action c 0 (readAction (bytes " world") (bytes "hello world")))
              b (bytes "hello") 5 None eq_refl) as (H1 & H2 & _).
  split; [exact H1 | exact H2].
Defined.

(** The count [Write] returns is all or nothing: 0 with every error, and
    without an error the length of the bytes given; the one exception is a
    [Write] that finds no action left, which returns 0 and no error whatever
    it was given. *)
Theorem Write_count_is_all_or_nothing (c c' : Conn) (b : list byte) (n : nat)
    (e : option error)
    (Hwrite : Conn.Write c b = Returns c' (n, e)) :
  match e with
  | Some _ => n = 0
  | None => n = length b \/ (n = 0 /\ Conn.getAction c' (current c') = nullAction)
  end.
Proof. by destruct (Write_fuel_frame _ _ _ _ _ _ Hwrite) as (_ & _ & _ & H). Qed.

Lemma Write_count_is_all_or_nothing_witness :
  let c := New None in
  0 = length (bytes "abc") \/ (0 = 0 /\ Conn.getAction c (current c) = nullAction).
Proof.
  intros c. exact (Write_count_is_all_or_nothing c c (bytes "abc") 0 None eq_refl).
Defined.

(** * Panics *)

(** [Write] and [Close] never panic, and [Read] panics in exactly one
    situation: the connection is open, the action at the cursor is a write
    action without data, and it is the last action of the scenario. *)
Theorem Read_panics_exactly_at_last_empty_write (c : Conn) (b : list byte) :
  ((exists c', Conn.Read c b = Panics c') <->
   closed c = false /\
   (exists o, scenario c !! current c = Some (writeAction [] o)) /\
   length (scenario c) = current c + 1) /\
  (forall c', Conn.Write c b <> Panics c') /\
  (forall c', Conn.Close c <> Panics c').
Proof.
  split; [|split].
  - split.
    + intros [c' Hp].
      destruct (closed c) eqn:Hc.
      { rewrite Read_unfold in Hp. unfold Conn.Read_body in Hp. by rewrite Hc in Hp. }
      split; [done|].
      destruct (decide (current c + 1 < length (scenario c))) as [Hlt|Hge].
      { destruct (Read_returns c b) as (c1 & r & Hr); [done|]. congruence. }
      destruct (scenario c !! current c) as [a|] eqn:Ea.
      * destruct a as [d o|[|x d] o| |];
          try (destruct (Read_returns c b) as (c1 & r & Hr); [|congruence];
               intros o' Ho'; congruence).
        split; [by exists o|]. apply lookup_lt_Some in Ea. lia.
      * destruct (Read_returns c b) as (c1 & r & Hr); [|congruence]. intros o Ho. congruence.
    + intros (Hopen & [o Ho] & Hlen). exists (incr c).
      rewrite Read_unfold. unfold Conn.Read_body.
      rewrite Hopen, (getAction_lookup _ _ _ Ho). simpl.
      by rewrite (proj2 (lookup_ge_None _ _)) by lia.
  - intros c'. apply Write_fuel_no_panic.
  - intros c'. apply Close_fuel_no_panic.
Qed.

(** * More on verification *)

Lemma Verify_spec (c : Conn) :
  let c' := fst (Conn.Verify c) in
  scenario c' = scenario c /\ errors c' = errors c /\ closed c' = closed c /\
  localAddr c' = localAddr c /\ remoteAddr c' = remoteAddr c /\
  current c' = (match Type_ (Conn.getAction c (current c)) with
                | ReadActionType | WriteActionType => current c + 1
                | _ => current c
                end) /\
  t c' = (fun log => log ++ synthesized c) <$> t c /\
  (snd (Conn.Verify c) = errors c <->
   length (scenario c) <= current c \/
   (length (scenario c) = current c + 1 /\
    exists o, scenario c !! current c = Some (readAction [] o))).
Proof.
  intros c'. subst c'.
  destruct (Verify_result c) as (Hr & He & Hcur & Hs).
  split; [done|]. split; [done|].
  assert (closed (fst (Conn.Verify c)) = closed c /\
          localAddr (fst (Conn.Verify c)) = localAddr c /\
          remoteAddr (fst (Conn.Verify c)) = remoteAddr c /\
          t (fst (Conn.Verify c)) = (fun log => log ++ synthesized c) <$> t c)
    as (H1 & H2 & H3 & H4).
  { unfold Conn.Verify, synthesized, unconsumed, leftover, cursor_after_leftover.
    destruct (Conn.getAction c (current c)) as [[|d data] o|data o| |]; simpl;
      match goal with
      | |- context [?n <? ?m] =>
          destruct (Nat.ltb_spec n m);
          [rewrite decide_True by done | rewrite decide_False by lia]
      end; simpl; repeat split; destruct (t c); simpl;
      rewrite ?app_nil_r, <- ?app_assoc; done. }
  split; [done|]. split; [done|]. split; [done|]. split.
  { rewrite Hcur. unfold cursor_after_leftover.
    by destruct (Conn.getAction c (current c)). }
  split; [done|].
  rewrite Hr. unfold synthesized, unconsumed, leftover, cursor_after_leftover, Conn.getAction.
  destruct (scenario c !! current c) as [a|] eqn:Ea.
  - pose proof (lookup_lt_Some _ _ _ Ea) as Hlt.
    destruct a as [[|d data] o|data o| |]; simpl.
    + destruct (decide (current c + 1 < length (scenario c))) as [Hd|Hd]; simpl.
      * split; [intros H; apply (f_equal length) in H; rewrite length_app in H; simpl in H; lia|].
        intros [?|[? _]]; lia.
      * rewrite app_nil_r. split; [|done]. intros _. right. split; [lia|]. by exists o.
    + split; [intros H; apply (f_equal length) in H; rewrite !length_app in H; simpl in H; lia|].
      intros [?|[_ [o' [=]]]]; lia.
    + split; [intros H; apply (f_equal length) in H; rewrite !length_app in H; simpl in H; lia|].
      intros [?|[_ [o' [=]]]]; lia.
    + rewrite decide_True by done. simpl.
      split; [intros H; apply (f_equal length) in H; rewrite !length_app in H; simpl in H; lia|].
      intros [?|[_ [o' [=]]]]; lia.
    + rewrite decide_True by done. simpl.
      split; [intros H; apply (f_equal length) in H; rewrite !length_app in H; simpl in H; lia|].
      intros [?|[_ [o' [=]]]]; lia.
  - apply lookup_ge_None in Ea. rewrite decide_False by lia. simpl. rewrite app_nil_r.
    split; [|done]. intros _. by left.
Qed.

(** [Verify] changes the cursor and what the attached test has been told,
    and nothing else: scenario, error list, latch and addresses are as they
    were.  It moves the cursor by one exactly when the action under it is a
    read or a write action; it reports to the test the diagnostics it makes
    up, although it takes them off the error list again.  And it returns the
    error list with nothing added exactly when the cursor is past the last
    action, or on a last action that is a read action without data. *)
Theorem Verify_effect (c : Conn) :
  let c' := fst (Conn.Verify c) in
  scenario c' = scenario c /\ errors c' = errors c /\ closed c' = closed c /\
  localAddr c' = localAddr c /\ remoteAddr c' = remoteAddr c /\
  current c' = (match Type_ (Conn.getAction c (current c)) with
                | ReadActionType | WriteActionType => current c + 1
                | _ => current c
                end) /\
  t c' = (fun log => log ++ synthesized c) <$> t c /\
  (snd (Conn.Verify c) = errors c <->
   length (scenario c) <= current c \/
   (length (scenario c) = current c + 1 /\
    exists o, scenario c !! current c = Some (readAction [] o))).
Proof. apply Verify_spec. Qed.

(** * The summary *)

Lemma logText_spec (ok : bool) (original actual : list byte) :
  (logText ok original actual = None <->
   ok = true /\ length original < length actual) /\
  (actual `suffix_of` original ->
   exists text,
     logText ok original actual = Some text /\
     concat (snd <$> text) = original /\
     (ok = true -> actual <> [] -> actual <> original ->
      text = [(Cyan, take (length original - length actual) original); (Yellow, actual)])).
Proof.
  unfold logText, cyan, yellow. split.
  - destruct ok; [|split; [done|by intros [? _]]].
    destruct (Nat.eqb_spec (length actual) 0) as [H0|H0];
      destruct (Nat.eqb_spec (length actual) (length original)) as [Hl|Hl]; simpl;
      try (split; [done|intros [_ ?]; lia]).
    destruct (Nat.ltb_spec (length original) (length actual)) as [Hlt|Hge].
    + done.
    + split; [done|intros [_ ?]; lia].
  - intros [k ->]. rewrite length_app.
    destruct ok; simpl; [|eexists; split; [done|]; split; [simpl; by rewrite app_nil_r|done]].
    destruct (Nat.eqb_spec (length actual) 0) as [H0|H0];
      destruct (Nat.eqb_spec (length actual) (length k + length actual)) as [Hl|Hl]; simpl.
    + eexists. split; [done|]. split; [simpl; by rewrite app_nil_r|].
      intros _ Hne. by apply nil_length_inv in H0.
    + eexists. split; [done|]. split; [simpl; by rewrite app_nil_r|].
      intros _ Hne. by apply nil_length_inv in H0.
    + eexists. split; [done|]. split; [simpl; by rewrite app_nil_r|].
      intros _ _ Hne. destruct Hne.
      assert (k = []) as -> by (apply nil_length_inv; lia). done.
    + destruct (Nat.ltb_spec (length k + length actual) (length actual)); [lia|].
      eexists. split; [done|].
      replace (length k + length actual - length actual) with (length k) by lia.
      rewrite take_app_length. simpl. by rewrite app_nil_r.
Qed.

(** [logText] panics exactly when it is asked for the text of a satisfied
    action whose data is longer than its original bytes.  When the data is
    an end piece of the original bytes it returns a text whose bytes are the
    original bytes; for a satisfied action of which a proper, non-empty end
    piece is left, that text is the consumed bytes in cyan followed by the
    remaining bytes in yellow. *)
Theorem logText_shows_the_original (ok : bool) (original actual : list byte) :
  (logText ok original actual = None <->
   ok = true /\ length original < length actual) /\
  (actual `suffix_of` original ->
   exists text,
     logText ok original actual = Some text /\
     concat (snd <$> text) = original /\
     (ok = true -> actual <> [] -> actual <> original ->
      text = [(Cyan, take (length original - length actual) original); (Yellow, actual)])).
Proof. apply logText_spec. Qed.

Lemma logText_shows_the_original_witness :
  logText true (bytes "helloworld") (bytes "world") =
    Some [(Cyan, bytes "hello"); (Yellow, bytes "world")].
Proof.
  destruct (proj2 (logText_shows_the_original true (bytes "helloworld") (bytes "world")))
    as (text & H1 & _ & H3).
  - exists (bytes "hello"). reflexivity.
  - rewrite H1. f_equal. apply H3; [reflexivity | discriminate | discriminate].
Defined.

Lemma summary_from_well_formed (c : Conn) (rest : list Action) :
  Forall (fun a => a <> nullAction /\ data_of a `suffix_of` original_of a) rest ->
  forall i,
  exists lines,
    Conn.summary_from c i rest = Some lines /\
    length lines = length rest /\
    forall k a, rest !! k = Some a ->
      exists text,
        lines !! k = Some (negb (current c <=? i + k), current c + 1, Type_ a, text) /\
        concat (snd <$> text) = original_of a.
Proof.
  induction 1 as [|a rest [Hnn Hsuf] _ IH]; intros i; simpl.
  - exists []. repeat split; try done.
  - destruct (IH (S i)) as (lines & -> & Hlen & Hlines).
    assert (exists text,
              Conn.summary_line c i a = Some [(negb (current c <=? i), current c + 1, Type_ a, text)]
              /\ concat (snd <$> text) = original_of a) as (text & -> & Htext).
    { unfold Conn.summary_line. destruct a as [data o|data o| |]; simpl in *; try done.
      - destruct (proj2 (logText_spec (negb (current c <=? i)) o data) Hsuf)
          as (text & -> & Ht & _).
        by exists text.
      - destruct (proj2 (logText_spec (negb (current c <=? i)) o data) Hsuf)
          as (text & -> & Ht & _).
        by exists text.
      - by exists []. }
    simpl. eexists. split; [done|]. split; [simpl; by rewrite Hlen|].
    intros [|k] a' Hk; simpl in *.
    + injection Hk as <-. exists text. by rewrite Nat.add_0_r.
    + destruct (Hlines k a' Hk) as (text' & Hl & Ht). exists text'.
      by replace (i + S k) with (S i + k) by lia.
Qed.

(** The summary of a [Verify] that follows any calls on a scenario as the
    constructors make it: building it does not panic; it has one line per
    action, in the order of the scenario; the line of an action names its
    method and shows its original bytes; and it is labelled OK exactly when
    the action lies before the cursor as [Verify] leaves it. *)
Theorem summary_after_run (ops : list Op) (c c' : Conn)
    (Hwf : well_formed c)
    (Hrun : run ops c = Some c') :
  let v := fst (Conn.Verify c') in
  exists lines,
    Conn.summary v = Some lines /\
    length lines = length (scenario c) /\
    forall i a, scenario c !! i = Some a ->
      exists text,
        lines !! i = Some (negb (current v <=? i), current v + 1, Type_ a, text) /\
        concat (snd <$> text) = original_of a.
Proof.
  intros v.
  destruct (run_frame ops c c' Hrun) as (HF & _).
  pose proof (well_formed_evolves _ _ HF Hwf) as Hwf'.
  assert (scenario v = scenario c') as Hs by (by destruct (Verify_result c') as (_ & _ & _ & ?)).
  destruct (summary_from_well_formed v (scenario v)) with (i := 0)
    as (lines & Hsum & Hl & Hlines).
  { rewrite Hs. exact Hwf'. }
  exists lines. split; [done|].
  split; [rewrite Hl, Hs; symmetry; by eapply Forall2_length|].
  intros i a Hi.
  destruct (Forall2_lookup_l _ _ _ _ _ HF Hi) as (a' & Hi' & Hty & Ho & _).
  rewrite <- Hs in Hi'. destruct (Hlines i a' Hi') as (text & Hline & Ht).
  exists text. simpl in Hline. by rewrite <- Hty, <- Ho.
Qed.

Lemma summary_after_run_witness :
  exists c' lines,
    run [OpWrite (bytes "hello")] helloworld_close = Some c' /\
    Conn.summary (fst (Conn.Verify c')) = Some lines /\ length lines = 2.
Proof.
  destruct (summary_after_run [OpWrite (bytes "hello")] helloworld_close _
              ltac:(repeat constructor; try discriminate; by exists []) eq_refl)
    as (lines & Hs & Hl & _).
  eexists _, lines. split; [reflexivity|]. split; [exact Hs | exact Hl].
Defined.
(** * Deadlines and addresses *)

Lemma run_closed_iff ops :
  forall c c', run ops c = Some c' ->
  (closed c' = true <->
   closed c = true \/ exists c2, (OpClose, Returns c2 None) ∈ zip ops (calls ops c)).
Proof.
  induction ops as [|op ops IH]; intros c c'; simpl.
  - intros [= <-]. split; [by left|]. intros [?|[c2 H]]; [done|]. by apply elem_of_nil in H.
  - destruct (call op c) as [c1 r| |] eqn:E; try done.
    intros Hrun. rewrite (IH _ _ Hrun).
    destruct (call_frame _ _ _ _ E) as (_ & _ & ->).
    split.
    + intros [[?|[-> ->]]|[c2 H]].
      * by left.
      * right. exists c1. apply elem_of_cons. by left.
      * right. exists c2. apply elem_of_cons. by right.
    + intros [?|[c2 H]]; [by left; left|].
      apply elem_of_cons in H as [[= -> <- <-]|H].
      * left. by right.
      * right. by exists c2.
Qed.

(** The three deadline setters agree, whatever the time, and fail with
    "closed" after a run of calls from an open connection exactly when one
    of the calls was a [Close] that returned nil. *)
Theorem deadline_setters_fail_once_closed (ops : list Op) (c c' : Conn) (time : Z)
    (Hopen : closed c = false)
    (Hrun : run ops c = Some c') :
  Conn.SetReadDeadline c' time = Conn.SetDeadline c' time /\
  Conn.SetWriteDeadline c' time = Conn.SetDeadline c' time /\
  (Conn.SetDeadline c' time = Some "closed"%string <->
   exists c2, (OpClose, Returns c2 None) ∈ zip ops (calls ops c)) /\
  (Conn.SetDeadline c' time = None <->
   ~ exists c2, (OpClose, Returns c2 None) ∈ zip ops (calls ops c)).
Proof.
  pose proof (run_closed_iff ops c c' Hrun) as Hiff.
  rewrite Hopen in Hiff.
  unfold Conn.SetReadDeadline, Conn.SetWriteDeadline, Conn.SetDeadline.
  split; [done|]. split; [done|].
  destruct (closed c') eqn:Hc'; split.
  - split; intros _; [|done]. by destruct (proj1 Hiff eq_refl) as [?|?].
  - split; [done|]. intros Hn. destruct Hn. by destruct (proj1 Hiff eq_refl) as [?|?].
  - split; [done|]. intros H. assert (false = true) by (apply Hiff; by right). done.
  - split; [|done]. intros _ H. assert (false = true) by (apply Hiff; by right). done.
Qed.

Lemma deadline_setters_fail_once_closed_witness :
  exists c',
    run [OpRead (replicate 11 Byte.x00); OpClose] hello_world_close = Some c' /\
    Conn.SetDeadline c' 0 = Some "closed"%string.
Proof.
  eexists. split; [reflexivity|].
  destruct (deadline_setters_fail_once_closed [OpRead (replicate 11 Byte.x00); OpClose]
              hello_world_close _ 0 eq_refl eq_refl) as (_ & _ & H & _).
  apply H. eexists. apply elem_of_cons. right. apply elem_of_cons. left. reflexivity.
Defined.

(** [LocalAddr] and [RemoteAddr] return the addresses that were set, each
    independently of the other, whatever calls and [Verify] came after. *)
Theorem addresses_are_what_was_set (ops : list Op) (c c' : Conn) (a1 a2 : TCPAddr)
    (Hrun : run ops (Conn.SetRemoteAddr (Conn.SetLocalAddr c a1) a2) = Some c') :
  Conn.LocalAddr c' = a1 /\ Conn.RemoteAddr c' = a2 /\
  Conn.LocalAddr (fst (Conn.Verify c')) = a1 /\
  Conn.RemoteAddr (fst (Conn.Verify c')) = a2.
Proof.
  destruct (run_frame _ _ _ Hrun) as (_ & H1 & H2 & _).
  destruct (Verify_spec c') as (_ & _ & _ & H3 & H4 & _).
  unfold Conn.LocalAddr, Conn.RemoteAddr. rewrite H3, H4, H1, H2. done.
Qed.

Lemma addresses_are_what_was_set_witness :
  let a1 := mkTCPAddr (10, 0, 0, 1)%N 4000%N in
  let a2 := mkTCPAddr (10, 0, 0, 2)%N 80%N in
  exists c',
    run [OpClose] (Conn.SetRemoteAddr (Conn.SetLocalAddr (New None) a1) a2) = Some c' /\
    Conn.LocalAddr c' = a1 /\ Conn.RemoteAddr c' = a2.
Proof.
  intros a1 a2. eexists. split; [reflexivity|].
  destruct (addresses_are_what_was_set [OpClose] (New None) _ a1 a2 eq_refl) as (H1 & H2 & _).
  split; [exact H1 | exact H2].
Defined.

(** * Exhausted read actions in front of [Write] and [Close] *)

Lemma set_current_same c : set_current c (current c) = c.
Proof. by destruct c. Qed.

Lemma drop_cons_inv {A} (l : list A) n a r :
  drop n l = a :: r -> l !! n = Some a /\ drop (S n) l = r.
Proof.
  intros Hd.
  assert (l !! n = Some a) as Hl.
  { pose proof (lookup_drop l n 0) as H. rewrite Hd, Nat.add_0_r in H. by simpl in H. }
  split; [done|]. rewrite (drop_S _ _ _ Hl) in Hd. by injection Hd.
Qed.

Lemma skip_reads_spec (rest : list Action) :
  forall i,
  i <= skip_reads i rest /\
  (forall k, k < skip_reads i rest - i -> exists o, rest !! k = Some (readAction [] o)) /\
  (forall o, rest !! (skip_reads i rest - i) <> Some (readAction [] o)).
Proof.
  induction rest as [|a rest IH]; intros i; simpl.
  - split; [lia|]. split; [intros; lia|]. done.
  - destruct a as [[|x d] o| | |]; simpl;
      try (split; [lia|]; split; [intros; lia|]; rewrite Nat.sub_diag; simpl; congruence).
    destruct (IH (S i)) as (Hle & Hbefore & Hat).
    split; [lia|]. split.
    + intros [|k] Hk; [by exists o|]. simpl. apply Hbefore. lia.
    + intros o'. replace (skip_reads (S i) rest - i) with (S (skip_reads (S i) rest - S i)) by lia.
      simpl. apply Hat.
Qed.

Lemma after_empty_reads_spec c :
  current c <= after_empty_reads c /\
  (forall i, current c <= i < after_empty_reads c ->
             exists o, scenario c !! i = Some (readAction [] o)) /\
  (forall o, Conn.getAction c (after_empty_reads c) <> readAction [] o).
Proof.
  unfold after_empty_reads.
  destruct (skip_reads_spec (drop (current c) (scenario c)) (current c)) as (Hle & Hbefore & Hat).
  set (j := skip_reads (current c) (drop (current c) (scenario c))) in *.
  split; [done|]. split.
  - intros i Hi. destruct (Hbefore (i - current c)) as [o Ho]; [lia|].
    exists o. rewrite lookup_drop in Ho. by replace (current c + (i - current c)) with i in Ho by lia.
  - intros o Ho. apply (Hat o). rewrite lookup_drop.
    replace (current c + (j - current c)) with j by lia.
    by apply getAction_is_lookup.
Qed.

Lemma skips_to_after_empty_reads {X} (F : Conn -> X) :
  (forall c o, closed c = false ->
               scenario c !! current c = Some (readAction [] o) -> F c = F (incr c)) ->
  forall c, closed c = false -> F c = F (set_current c (after_empty_reads c)).
Proof.
  intros HF c. unfold after_empty_reads.
  remember (drop (current c) (scenario c)) as rest eqn:Hrest.
  revert c Hrest. induction rest as [|a rest IH]; intros c Hrest Hopen; simpl.
  - by rewrite set_current_same.
  - symmetry in Hrest. apply drop_cons_inv in Hrest as [Ha Hrest].
    destruct a as [[|x d] o| | |]; simpl; try by rewrite set_current_same.
    rewrite (HF c o Hopen Ha).
    rewrite (IH (incr c)); simpl; [|by rewrite Nat.add_1_r|done].
    by rewrite Nat.add_1_r.
Qed.

(** [Close] on an open connection first moves the cursor past every read
    action without data, and then decides on the action [j] it finds: a
    close action or the end of the scenario close the connection, a read
    action with data or a write action give the error of that place and
    leave the connection open. *)
Theorem Close_decides_after_the_empty_reads (c : Conn) (Hopen : closed c = false) :
  let j := after_empty_reads c in
  current c <= j /\
  (forall i, current c <= i < j -> exists o, scenario c !! i = Some (readAction [] o)) /\
  Conn.Close c =
    match Conn.getAction c j with
    | closeAction => Returns (set_closed (set_current c (j + 1)) true) None
    | nullAction => Returns (set_closed (set_current c j) true) None
    | readAction _ _ =>
        let e := ShouldReadButClose (j + 1) in
        Returns (Conn.addError (set_current c j) e) (Some e)
    | writeAction _ _ =>
        let e := ShouldWriteButClose (j + 1) in
        Returns (Conn.addError (set_current c j) e) (Some e)
    end.
Proof.
  intros j. destruct (after_empty_reads_spec c) as (Hle & Hbefore & Hat).
  split; [done|]. split; [done|].
  rewrite (skips_to_after_empty_reads Conn.Close Close_skips_empty_read c Hopen).
  fold j. rewrite Close_unfold. unfold Conn.Close_body. simpl. rewrite Hopen.
  change (Conn.getAction (set_current c j) j) with (Conn.getAction c j).
  destruct (Conn.getAction c j) as [[|x d] o| | |] eqn:Ea; try done.
  by destruct (Hat o).
Qed.

Lemma Close_decides_after_the_empty_reads_witness :
  Conn.Close empty_read_then_close =
    Returns (set_closed (set_current empty_read_then_close 2) true) None.
Proof.
  exact (proj2 (proj2 (Close_decides_after_the_empty_reads empty_read_then_close eq_refl))).
Defined.

(** [Write] on an open connection first moves the cursor past every read
    action without data, and then decides on the action [j] it finds: at a
    write action the bytes are compared with its data (all of it: the cursor
    moves on; a front piece of it: that piece is taken off; otherwise the
    mismatch error), a read action with data or a close action give the
    error of that place, and at the end of the scenario the bytes are
    accepted with a count of 0. *)
Theorem Write_decides_after_the_empty_reads (c : Conn) (b : list byte)
    (Hopen : closed c = false) :
  let j := after_empty_reads c in
  Conn.Write c b =
    match Conn.getAction c j with
    | readAction _ _ =>
        let e := ShouldReadButWrite (j + 1) in
        Returns (Conn.addError (set_current c j) e) (0, Some e)
    | writeAction data original =>
        if bool_decide (length b <= length data /\ b = take (length b) data) then
          if bool_decide (length b = length data)
          then Returns (set_current c (j + 1)) (length b, None)
          else Returns (set_action (set_current c j) j
                          (writeAction (drop (length b) data) original))
                       (length b, None)
        else
          let e := WriteMismatch (j + 1) data b in
          Returns (Conn.addError (set_current c j) e) (0, Some e)
    | closeAction =>
        let e := ShouldCloseButWrite (j + 1) in
        Returns (Conn.addError (set_current c j) e) (0, Some e)
    | nullAction => Returns (set_current c j) (0, None)
    end.
Proof.
  intros j. destruct (after_empty_reads_spec c) as (Hle & Hbefore & Hat).
  rewrite (skips_to_after_empty_reads (fun c => Conn.Write c b)
             (fun c o => Write_skips_empty_read c b o) c Hopen).
  fold j.
  destruct (Conn.getAction c j) as [[|x d] o|data o| |] eqn:Ea.
  - by destruct (Hat o).
  - rewrite Write_unfold. unfold Conn.Write_body. simpl. rewrite Hopen.
    change (Conn.getAction (set_current c j) j) with (Conn.getAction c j). by rewrite Ea.
  - apply getAction_is_lookup in Ea; [|done].
    by rewrite (Write_on_write (set_current c j) b data o Hopen Ea).
  - rewrite Write_unfold. unfold Conn.Write_body. simpl. rewrite Hopen.
    change (Conn.getAction (set_current c j) j) with (Conn.getAction c j). by rewrite Ea.
  - rewrite Write_unfold. unfold Conn.Write_body. simpl. rewrite Hopen.
    change (Conn.getAction (set_current c j) j) with (Conn.getAction c j). by rewrite Ea.
Qed.

Lemma Write_decides_after_the_empty_reads_witness :
  let c := empty_read_then_close in
  let e := ShouldCloseButWrite 2 in
  Conn.Write c (bytes "x") = Returns (Conn.addError (set_current c 1) e) (0, Some e).
Proof.
  intros c e. exact (Write_decides_after_the_empty_reads c (bytes "x") eq_refl).
Defined.

(** * Playing a scenario as scripted *)

Lemma drop_insert_here {A} (l : list A) i x :
  i < length l -> drop i (<[i:=x]> l) = x :: drop (S i) l.
Proof.
  intros Hi. rewrite (drop_S (<[i:=x]> l) x i) by (by apply list_lookup_insert_eq).
  by rewrite drop_insert_lt by lia.
Qed.

Lemma Read_pending_step (c : Conn) (b data original : list byte) :
  closed c = false ->
  scenario c !! current c = Some (readAction data original) ->
  data <> [] ->
  Conn.Read c b =
    Returns (set_action c (current c)
               (readAction (drop (length b `min` length data) data) original))
            (take (length b `min` length data) data ++ drop (length b `min` length data) b,
             length b `min` length data, None).
Proof.
  intros Hopen Hact Hdata. rewrite Read_unfold. unfold Conn.Read_body.
  rewrite Hopen, (getAction_lookup _ _ _ Hact). by destruct data.
Qed.

(** The scripted call at the action under the cursor. *)
Lemma scripted_call_at_cursor (c : Conn) (a : Action) (rest : list Action) :
  closed c = false ->
  playable (a :: rest) ->
  drop (current c) (scenario c) = a :: rest ->
  exists op c1,
    scripted a = [op] /\ call op c = Returns c1 None /\
    (closed c1 = false \/ rest = []) /\
    (drop (current c1) (scenario c1) = rest \/
     exists o, drop (current c1) (scenario c1) = readAction [] o :: rest).
Proof.
  intros Hopen [Ha _] Hdrop. apply drop_cons_inv in Hdrop as [Hact Hrest].
  pose proof (lookup_lt_Some _ _ _ Hact) as Hlt.
  destruct a as [data o|data o| |]; simpl in *; [| | |done].
  - eexists _, _. split; [done|]. unfold call.
    rewrite (Read_pending_step c (replicate (length data) Byte.x00) data o Hopen Hact Ha). split; [done|]. split; [by left|]. right. exists o. simpl.
    rewrite length_replicate, Nat.min_id, drop_all.
    rewrite drop_insert_here by done. by rewrite Hrest.
  - eexists _, _. split; [done|]. unfold call.
    rewrite (Write_on_write c data data o Hopen Hact).
    rewrite bool_decide_eq_true_2 by (split; [lia | by rewrite firstn_all]).
    rewrite bool_decide_eq_true_2 by done.
    split; [done|]. split; [by left|]. left. simpl. by rewrite Nat.add_1_r.
  - eexists _, _. split; [done|]. unfold call.
    rewrite Close_unfold. unfold Conn.Close_body.
    rewrite Hopen, (getAction_lookup _ _ _ Hact).
    split; [done|]. split; [by right|]. left. simpl. by rewrite Nat.add_1_r.
Qed.

(** The scripted call of the action that follows an emptied read action is
    the call on the connection with the cursor moved on. *)
Lemma scripted_call_after_emptied_read (c : Conn) (o : list byte) (a : Action)
    (rest : list Action) (op : Op) :
  closed c = false ->
  drop (current c) (scenario c) = readAction [] o :: a :: rest ->
  scripted a = [op] ->
  call op c = call op (incr c) /\
  drop (current (incr c)) (scenario (incr c)) = a :: rest.
Proof.
  intros Hopen Hdrop Hop. apply drop_cons_inv in Hdrop as [Hact Hrest].
  split; [|simpl; by rewrite Nat.add_1_r].
  pose proof Hrest as Hnext. apply drop_cons_inv in Hnext as [Hnext _].
  destruct a as [data o'|data o'| |]; simpl in Hop; try done; injection Hop as <-; simpl.
  - rewrite (Read_skips_empty_read c _ o Hopen Hact).
    unfold Conn.getAction. by rewrite Nat.add_1_r, Hnext.
  - by rewrite (Write_skips_empty_read c _ o Hopen Hact).
  - by rewrite (Close_skips_empty_read c o Hopen Hact).
Qed.

Lemma play_rest (rest : list Action) :
  forall c,
  playable rest -> closed c = false ->
  (drop (current c) (scenario c) = rest \/
   exists o, drop (current c) (scenario c) = readAction [] o :: rest) ->
  exists c',
    run (concat (scripted <$> rest)) c = Some c' /\
    Forall (fun r => exists c1, r = Returns c1 None) (calls (concat (scripted <$> rest)) c) /\
    length (calls (concat (scripted <$> rest)) c) = length rest /\
    errors c' = errors c /\ t c' = t c /\
    (drop (current c') (scenario c') = [] \/
     exists o, drop (current c') (scenario c') = [readAction [] o]).
Proof.
  induction rest as [|a rest IH]; intros c Hplay Hopen Hcur.
  - exists c. simpl. repeat split; try done.
  - assert (exists op c0 c1,
              scripted a = [op] /\ call op c = call op c0 /\
              call op c0 = Returns c1 None /\
              (closed c1 = false \/ rest = []) /\
              (drop (current c1) (scenario c1) = rest \/
               exists o, drop (current c1) (scenario c1) = readAction [] o :: rest))
      as (op & c0 & c1 & Hop & Hsame & Hcall & Hcl & Hnext).
    { destruct Hcur as [Hd|[o Hd]].
      - destruct (scripted_call_at_cursor c a rest Hopen Hplay Hd)
          as (op & c1 & Hop & Hcall & Hcl & Hnext).
        by exists op, c, c1.
      - assert (exists op, scripted a = [op]) as [op Hop].
        { destruct Hplay as [Ha _]. destruct a; simpl; eauto. done. }
        destruct (scripted_call_after_emptied_read c o a rest op Hopen Hd Hop) as [Hsame Hd'].
        destruct (scripted_call_at_cursor (incr c) a rest Hopen Hplay Hd')
          as (op' & c1 & Hop' & Hcall & Hcl & Hnext).
        assert (op' = op) as -> by congruence.
        by exists op, (incr c), c1. }
    rewrite Hcall in Hsame.
    destruct (call_frame _ _ _ _ Hsame) as ((_ & _ & He & Ht & _) & _).
    simpl in He, Ht. rewrite app_nil_r in He. rewrite fmap_app_nil in Ht.
    simpl. rewrite Hop. simpl. rewrite Hsame.
    destruct Hcl as [Hcl| ->].
    + destruct (IH c1 (proj2 Hplay) Hcl Hnext) as (c' & Hrun & Hall & Hlen & He' & Ht' & Hend).
      exists c'. split; [done|]. split; [constructor; eauto|].
      split; [simpl; f_equal; exact Hlen|]. split; [congruence|]. split; [congruence|]. done.
    + exists c1. simpl. split; [done|]. split; [repeat constructor; eauto|].
      split; [done|]. split; [done|]. split; [done|]. done.
Qed.

(** A test that makes exactly the calls its scenario scripts has nothing to
    report.  For a scenario of read and write actions with data, closed by a
    close action or not, install it on a new connection and make, action by
    action, a [Read] with room for the data, a [Write] of the data, a
    [Close]: every call returns without an error, no error is recorded nor
    reported to the test, and [Verify] returns the empty list. *)
Theorem scripted_calls_leave_nothing_to_report (actions : list Action)
    (t0 : option (list error))
    (Hplay : playable actions) :
  let c := SetExpectedActions (New t0) actions in
  let ops := concat (scripted <$> actions) in
  exists c',
    run ops c = Some c' /\
    length (calls ops c) = length actions /\
    Forall (fun r => exists c1, r = Returns c1 None) (calls ops c) /\
    errors c' = [] /\ t c' = t0 /\
    snd (Conn.Verify c') = [].
Proof.
  intros c ops.
  destruct (play_rest actions c Hplay eq_refl (or_introl eq_refl))
    as (c' & Hrun & Hall & Hlen & He & Ht & Hend).
  exists c'. split; [done|]. split; [done|]. split; [done|].
  split; [done|]. split; [done|].
  change (errors c) with (@nil error) in He. rewrite <- He.
  apply (proj2 (proj2 (proj2 (proj2 (proj2 (proj2 (proj2 (Verify_spec c')))))))).
  destruct Hend as [Hd|[o Hd]].
  - left. apply (f_equal length) in Hd. rewrite length_drop in Hd. simpl in Hd. lia.
  - right. pose proof Hd as Hl. apply (f_equal length) in Hl. rewrite length_drop in Hl.
    simpl in Hl. apply drop_cons_inv in Hd as [Hact _].
    pose proof (lookup_lt_Some _ _ _ Hact). split; [lia|]. by exists o.
Qed.

Lemma scripted_calls_leave_nothing_to_report_witness :
  exists c',
    run [OpRead (replicate 19 Byte.x00); OpWrite (bytes "hello!!"); OpClose]
        (SetExpectedActions (New None)
           [Read (bytes "welcome from server"); Write (bytes "hello!!"); Close]) = Some c' /\
    snd (Conn.Verify c') = [].
Proof.
  destruct (scripted_calls_leave_nothing_to_report
              [Read (bytes "welcome from server"); Write (bytes "hello!!"); Close] None)
    as (c' & Hrun & _ & _ & _ & _ & Hv).
  - repeat split; discriminate.
  - exists c'. split; [exact Hrun | exact Hv].
Defined.
